(** * Wake-T: quasi-static r-z plasma wakefield solver and Boris pusher

    A shallow embedding of
      - [wake_t/physics_models/plasma_wakefields/qs_rz_baxevanis/solver.py]
      - [wake_t/particles/push/boris_pusher.py]
    over the real numbers, followed by the properties of the solver, the
    motion integrator, the xi-stepping driver and the momentum push.

    Conventions of the embedding.
      - A NumPy [float64] array is a [list R]; arithmetic is exact real
        arithmetic.  [np.log] is [ln], [np.sqrt] is [sqrt], [np.exp] is [exp].
      - [a[i]] is the total lookup [a !!! i]; [a[i] = v] is [<[i:=v]> a].
        NumPy raises on an index out of range where the model reads [0] or
        leaves the list unchanged; every loop below indexes within range.
      - Division and [ln] are total over [R] where the compiled functions
        raise [ZeroDivisionError]; the inputs on which the field solver
        divides by no zero and reads no empty array are singled out by
        [field_solver_defined] and the notions built on it.
      - A [for] loop over indices is a [fold_left] of its body over the index
        list, threading the local accumulators and the arrays it writes.
      - [np.argsort], [np.gradient], the physical constants of
        [scipy.constants], the [gather] method of the field object and the
        beam interpolator built by [get_beam_function] come from outside
        these two files; they are section variables.  The plasma skin depth [s_d]
        is an argument of the functions that use it. *)

From Stdlib Require Import Reals Lra Lia ZArith String Sorted.
From stdpp Require Import base list.

Open Scope R_scope.

(** ** Arrays of reals *)

#[global] Instance R_inhabited : Inhabited R := populate 0.
#[global] Instance Rlt_rel_dec : RelDecision Rlt := Rlt_dec.
#[global] Instance Rle_rel_dec : RelDecision Rle := Rle_dec.
#[global] Instance Rge_rel_dec : RelDecision Rge := Rge_dec.

(** [np.zeros(n)], [np.ones(n)] and [np.empty(n)] (the latter is always
    overwritten in full before it is read). *)
Definition np_zeros (n : nat) : list R := replicate n 0.
Definition np_ones (n : nat) : list R := replicate n 1.
Definition np_empty (n : nat) : list R := replicate n 0.

(** [np.zeros((n_r, n_xi))]: a mesh is the list of its [n_r] rows. *)
Definition np_zeros2 (n_r n_xi : nat) : list (list R) :=
  replicate n_r (np_zeros n_xi).

(** [a[idx]] for an index array [idx] (fancy indexing, makes a copy). *)
Definition take_idx (a : list R) (idx : list nat) : list R :=
  (fun i => a !!! i) <$> idx.

(** [a[-1]]. *)
Definition last_elem (a : list R) : R := a !!! (length a - 1)%nat.

(** [np.linspace(start, stop, n)]. *)
Definition np_linspace (start stop : R) (n : nat) : list R :=
  (fun k => INR k * ((stop - start) / INR (n - 1)) + start) <$> seq 0 n.

(** [mesh[:, i] = col]. *)
Definition set_col (mesh : list (list R)) (i : nat) (col : list R)
  : list (list R) :=
  imap (fun k row => <[i := col !!! k]> row) mesh.


(** Sum of a list of reals. *)
Definition Rsum (l : list R) : R := foldr Rplus 0 l.

(** What an index array must satisfy to be a result of [np.argsort(r)]: it
    enumerates the indices of [r] and reads [r] in ascending order.  NumPy's
    default sort is not stable, so the order of equal keys is left open. *)
Definition is_argsort (r : list R) (idx : list nat) : Prop :=
  Permutation idx (seq 0 (length r)) /\
  forall a b : nat, (a <= b)%nat -> (b < length idx)%nat ->
    r !!! (idx !!! a) <= r !!! (idx !!! b).

(** The order of two indices by their keys. *)
Definition key_le (r : list R) (i j : nat) : Prop := r !!! i <= r !!! j.

(** A concrete argsort: insertion of each index, in turn, before the first
    index with a strictly larger key (a stable sort). *)
Fixpoint insert_idx (r : list R) (i : nat) (idx : list nat) : list nat :=
  match idx with
  | [] => [i]
  | j :: idx' =>
      if decide (r !!! i < r !!! j) then i :: j :: idx'
      else j :: insert_idx r i idx'
  end.

Definition stable_argsort (r : list R) : list nat :=
  fold_left (fun idx i => insert_idx r i idx) (seq 0 (length r)) [].

(** A beam-free source term: [b_theta_0 = 0] at every radius. *)
Definition no_beam (r : list R) (xi : R) : list R := np_zeros (length r).






(** ** boris_pusher.py *)

Section BorisPusher.

(** [scipy.constants]: elementary charge, electron mass, speed of light. *)
Variables ct_e ct_m_e ct_c : R.

Record momenta := Momenta { mom_px : list R; mom_py : list R; mom_pz : list R }.

(** Body of the loop of [push_momentum] for particle [i]. *)
Definition push_momentum_body (k : R) (ex ey ez bx by_ bz : list R)
           (p : momenta) (i : nat) : momenta :=
  let px_i := mom_px p !!! i in
  let py_i := mom_py p !!! i in
  let pz_i := mom_pz p !!! i in
  let ex_i := ex !!! i in
  let ey_i := ey !!! i in
  let ez_i := ez !!! i in
  let bx_i := bx !!! i in
  let by_i := by_ !!! i in
  let bz_i := bz !!! i in
  let p_minus_x := px_i + k * ex_i in
  let p_minus_y := py_i + k * ey_i in
  let p_minus_z := pz_i + k * ez_i in
  let c_over_gamma_med :=
    ct_c / sqrt (1 + (p_minus_x ^ 2 + p_minus_y ^ 2 + p_minus_z ^ 2)) in
  let t_x := k * c_over_gamma_med * bx_i in
  let t_y := k * c_over_gamma_med * by_i in
  let t_z := k * c_over_gamma_med * bz_i in
  let cons_s := 2 / (1 + t_x ^ 2 + t_y ^ 2 + t_z ^ 2) in
  let s_x := cons_s * t_x in
  let s_y := cons_s * t_y in
  let s_z := cons_s * t_z in
  let p_xc1 := p_minus_x + p_minus_y * t_z - p_minus_z * t_y in
  let p_yc1 := p_minus_y + p_minus_z * t_x - p_minus_x * t_z in
  let p_zc1 := p_minus_z + p_minus_x * t_y - p_minus_y * t_x in
  {| mom_px := <[i := p_minus_x + p_yc1 * s_z - p_zc1 * s_y + k * ex_i]> (mom_px p);
     mom_py := <[i := p_minus_y + p_zc1 * s_x - p_xc1 * s_z + k * ey_i]> (mom_py p);
     mom_pz := <[i := p_minus_z + p_xc1 * s_y - p_yc1 * s_x + k * ez_i]> (mom_pz p) |}.

(** [push_momentum]: updates [px], [py], [pz] in place. *)
Definition push_momentum (px py pz ex ey ez bx by_ bz : list R) (dt : R)
  : momenta :=
  let k := - ct_e * dt / (ct_m_e * 2 * ct_c) in
  fold_left (push_momentum_body k ex ey ez bx by_ bz)
            (seq 0 (length px)) (Momenta px py pz).

(** The position arrays [x], [y], [xi] of a bunch. *)
Record positions := Positions {
  pos_x : list R; pos_y : list R; pos_xi : list R }.

(** Body of the loop of [apply_half_position_push] for particle [i]. *)
Definition half_push_body (px py pz : list R) (dt : R)
           (s : positions) (i : nat) : positions :=
  let px_i := px !!! i in
  let py_i := py !!! i in
  let pz_i := pz !!! i in
  let c_over_gamma_i :=
    ct_c / sqrt (1 + (px_i ^ 2 + py_i ^ 2 + pz_i ^ 2)) in
  {| pos_x := <[i := pos_x s !!! i + 0.5 * px_i * dt * c_over_gamma_i]> (pos_x s);
     pos_y := <[i := pos_y s !!! i + 0.5 * py_i * dt * c_over_gamma_i]> (pos_y s);
     pos_xi :=
       <[i := pos_xi s !!! i + 0.5 * (pz_i * c_over_gamma_i - ct_c) * dt]>
         (pos_xi s) |}.

(** [apply_half_position_push]: updates [x], [y], [xi] in place. *)
Definition apply_half_position_push (x y xi px py pz : list R) (dt : R)
  : positions :=
  fold_left (half_push_body px py pz dt) (seq 0 (length x)) (Positions x y xi).

(** The six field arrays of a bunch, in the order of
    [bunch.get_field_arrays()]. *)
Record field_arrays := FieldArrays {
  fa_ex : list R; fa_ey : list R; fa_ez : list R;
  fa_bx : list R; fa_by : list R; fa_bz : list R }.

(** [field.gather(x, y, xi, ex, ey, ez, bx, by, bz)] belongs to the field
    object handed to the pusher: it is given the positions and the field
    arrays and leaves the gathered values in the arrays. *)
Variable gather : list R -> list R -> list R -> field_arrays -> field_arrays.

(** [apply_boris_pusher]: half a position push, the gathering of the fields
    at the new positions, the momentum push, and the second half of the
    position push.  [fa] are the arrays of [bunch.get_field_arrays()]. *)
Definition apply_boris_pusher (x y xi px py pz : list R) (fa : field_arrays)
           (dt : R) : positions * momenta :=
  let s1 := apply_half_position_push x y xi px py pz dt in
  let f := gather (pos_x s1) (pos_y s1) (pos_xi s1) fa in
  let p := push_momentum px py pz (fa_ex f) (fa_ey f) (fa_ez f)
                         (fa_bx f) (fa_by f) (fa_bz f) dt in
  let s2 := apply_half_position_push (pos_x s1) (pos_y s1) (pos_xi s1)
                                     (mom_px p) (mom_py p) (mom_pz p) dt in
  (s2, p).

End BorisPusher.

(** ** solver.py *)

(** The parameters of the laser pulse, in the order of the list
    [laser_params] built by [calculate_wakefields]. *)
Record laser_params := LaserParams {
  a_0 : R; l_0 : R; w_0 : R; tau : R; xi_c : R;
  polarization : string; laser_z_foc : R }.

(** The plasma column: the arrays [r], [pr], [gamma], [q] of the driver. *)
Record plasma := Plasma {
  pl_r : list R; pl_pr : list R; pl_gamma : list R; pl_q : list R }.

(** The five meshes filled by the driver loop. *)
Record meshes := Meshes {
  psi_mesh : list (list R);
  dr_psi_mesh : list (list R);
  dxi_psi_mesh : list (list R);
  b_theta_bar_mesh : list (list R);
  b_theta_0_mesh : list (list R) }.

(** Accumulators of the first sorted pass of
    [calculate_psi_and_derivatives_at_particles]. *)
Record psi_pass := PsiPass {
  pp_psi : list R; pp_dr_psi : list R; pp_sum_1 : R; pp_sum_2 : R }.

(** Accumulators of the first sorted pass of
    [calculate_psi_and_derivatives]. *)
Record probe_pass := ProbePass {
  pb_sum_1 : R; pb_sum_2 : R;
  pb_sum_1_arr : list R; pb_sum_2_arr : list R; pb_psi_part : list R }.

(** Accumulators of the forward sweep of [calculate_ai_bi]. *)
Record sweep := Sweep {
  sw_K : list R; sw_U : list R; sw_T : list R; sw_P : list R;
  sw_K_im1 : R; sw_U_im1 : R; sw_T_im1 : R; sw_P_im1 : R }.

(** Accumulators of the probe loop of [calculate_psi_and_derivatives]. *)
Record probe_out := ProbeOut {
  po_i_last : Z; po_psi : list R; po_dr_psi : list R; po_dxi_psi : list R }.



Section Solver.

Variable argsort : list R -> list nat.
Variable ct_c : R.
(** The interpolator returned by [get_beam_function], called as
    [beam_source(r, xi)].  The functions below are those of a call with a
    beam: without one, [calculate_wakefields] sets [beam_source = None] and
    the call at line 262 raises [TypeError] in the first step. *)
Variable beam_source : list R -> R -> list R.

(** *** Laser source terms *)

Definition get_nabla_a (xi : R) (r : list R) (lp : laser_params) : list R :=
  let z_r := PI * w_0 lp ^ 2 / l_0 lp in
  let w_fac := sqrt (1 + (laser_z_foc lp / z_r) ^ 2) in
  let s_r := w_0 lp * w_fac / sqrt 2 in
  let s_z := tau lp * ct_c / (2 * sqrt (2 * ln 2)) * sqrt 2 in
  let avg_amplitude :=
    if String.eqb (polarization lp) "linear" then a_0 lp / sqrt 2
    else a_0 lp in
  (fun r_i =>
     - 2 * (avg_amplitude / w_fac) ^ 2 * r_i / s_r ^ 2 *
     (exp (- r_i ^ 2 / s_r ^ 2) * exp (- (xi - xi_c lp) ^ 2 / s_z ^ 2)))
    <$> r.

Definition get_a2 (xi : R) (r : list R) (lp : laser_params) : list R :=
  let z_r := PI * w_0 lp ^ 2 / l_0 lp in
  let w_fac := sqrt (1 + (laser_z_foc lp / z_r) ^ 2) in
  let s_r := w_0 lp * w_fac / sqrt 2 in
  let s_z := tau lp * ct_c / (2 * sqrt (2 * ln 2)) * sqrt 2 in
  let avg_amplitude :=
    if String.eqb (polarization lp) "linear" then a_0 lp / sqrt 2
    else a_0 lp in
  (fun r_i =>
     (avg_amplitude / w_fac) ^ 2 *
     (exp (- r_i ^ 2 / s_r ^ 2) * exp (- (xi - xi_c lp) ^ 2 / s_z ^ 2)))
    <$> r.

(** *** Reflection of particles with negative radius *)

(** [np.where(r < 0.)]. *)
Definition np_where_neg (r : list R) : list nat :=
  filter (fun i => r !!! i < 0) (seq 0 (length r)).

(** [a[idx] *= -1.] *)
Definition negate_at (a : list R) (idx : list nat) : list R :=
  fold_left (fun a i => <[i := a !!! i * -1]> a) idx a.

(** The correction applied at the start of [motion_derivatives] (on
    copies) and at the end of [update_particles_rk4] (in place). *)
Definition reflect_negative (r pr : list R) : list R * list R :=
  let idx_neg := np_where_neg r in
  if decide (0 < length idx_neg)%nat
  then (negate_at r idx_neg, negate_at pr idx_neg)
  else (r, pr).

(** *** Wakefield potential at the plasma particles *)

Definition psi_pass_body (r q : list R) (st : psi_pass) (i : nat)
  : psi_pass :=
  let r_i := r !!! i in
  let q_i := q !!! i in
  let sum_1 := pp_sum_1 st in
  let sum_2 := pp_sum_2 st in
  let sum_1_new := sum_1 + q_i in
  let sum_2_new := sum_2 + q_i * ln r_i in
  let sum_1_avg := 0.5 * (sum_1 + sum_1_new) in
  let sum_2_avg := 0.5 * (sum_2 + sum_2_new) in
  {| pp_psi :=
       <[i := sum_1_avg * ln r_i - sum_2_avg - 0.25 * r_i ^ 2]> (pp_psi st);
     pp_dr_psi := <[i := sum_1_avg / r_i - 0.5 * r_i]> (pp_dr_psi st);
     pp_sum_1 := sum_1_new;
     pp_sum_2 := sum_2_new |}.

Definition psi_pass_run (r q : list R) : psi_pass :=
  let n_part := length r in
  fold_left (psi_pass_body r q) (argsort r)
            (PsiPass (np_zeros n_part) (np_zeros n_part) 0 0).

(** The value subtracted from [psi] on line 466. *)
Definition psi_offset_at_particles (r q : list R) : R :=
  let st := psi_pass_run r q in
  let r_N := last_elem r in
  pp_sum_1 st * ln r_N - pp_sum_2 st - 0.25 * r_N ^ 2.

Definition dxi_psi_body (r pr q psi : list R) (st : list R * R) (i : nat)
  : list R * R :=
  let '(dxi_psi, sum_3) := st in
  let r_i := r !!! i in
  let pr_i := pr !!! i in
  let q_i := q !!! i in
  let psi_i := psi !!! i in
  let sum_3_new := sum_3 + (q_i * pr_i) / (r_i * (1 + psi_i)) in
  (<[i := -0.5 * (sum_3 + sum_3_new)]> dxi_psi, sum_3_new).

Definition calculate_psi_and_derivatives_at_particles (r pr q : list R)
  : list R * list R * list R :=
  let n_part := length r in
  let idx := argsort r in
  let st := psi_pass_run r q in
  let dr_psi := pp_dr_psi st in
  let psi := (fun x => x - psi_offset_at_particles r q) <$> pp_psi st in
  let '(dxi_psi, sum_3) :=
    fold_left (dxi_psi_body r pr q psi) idx (np_zeros n_part, 0) in
  let dxi_psi := (fun x => x + sum_3) <$> dxi_psi in
  (psi, dr_psi, dxi_psi).

(** *** Wakefield potential at the probe radii *)

Definition probe_pass_body (r q : list R) (st : probe_pass) (i : nat)
  : probe_pass :=
  let r_i := r !!! i in
  let q_i := q !!! i in
  let sum_1 := pb_sum_1 st + q_i in
  let sum_2 := pb_sum_2 st + q_i * ln r_i in
  {| pb_sum_1 := sum_1;
     pb_sum_2 := sum_2;
     pb_sum_1_arr := <[i := sum_1]> (pb_sum_1_arr st);
     pb_sum_2_arr := <[i := sum_2]> (pb_sum_2_arr st);
     pb_psi_part :=
       <[i := sum_1 * ln r_i - sum_2 - 0.25 * r_i ^ 2]> (pb_psi_part st) |}.

Definition probe_pass_run (r q : list R) : probe_pass :=
  let n_part := length r in
  fold_left (probe_pass_body r q) (argsort r)
            (ProbePass 0 0 (np_zeros n_part) (np_zeros n_part)
                       (np_zeros n_part)).

(** The value added to [psi_part] (line 517) and subtracted from [psi]
    (line 559). *)
Definition psi_offset_probe (r q : list R) : R :=
  let st := probe_pass_run r q in
  let r_N := last_elem r in
  pb_sum_1 st * ln r_N - pb_sum_2 st - 0.25 * r_N ^ 2.

Definition sum_3_body (r pr q psi_part : list R) (st : list R * R)
           (i : nat) : list R * R :=
  let '(sum_3_arr, sum_3) := st in
  let r_i := r !!! i in
  let pr_i := pr !!! i in
  let q_i := q !!! i in
  let psi_i := psi_part !!! i in
  let sum_3 := sum_3 + (q_i * pr_i) / (r_i * (1 + psi_i)) in
  (<[i := sum_3]> sum_3_arr, sum_3).

(** The inner loop of the probe evaluation: the position, in sorted order,
    of the last plasma particle with [r_i < r_j].  [i_sort] counts the
    positions already visited, [i_last] is the variable of the source,
    which keeps its previous value when the column is empty. *)
Fixpoint scan_i_last (r : list R) (r_j : R) (idx : list nat)
         (i_sort : nat) (i_last : Z) : Z :=
  match idx with
  | [] => i_last
  | i :: idx' =>
      if decide (r !!! i >= r_j) then (Z.of_nat i_sort - 1)%Z
      else scan_i_last r r_j idx' (S i_sort) (Z.of_nat i_sort)
  end.

Definition probe_body (r_arr r : list R) (idx : list nat)
           (sum_1_arr sum_2_arr sum_3_arr : list R)
           (st : probe_out) (j : nat) : probe_out :=
  let r_j := r_arr !!! j in
  let i_last := scan_i_last r r_j idx 0 (po_i_last st) in
  if decide (i_last = -1)%Z then
    {| po_i_last := i_last;
       po_psi := <[j := -0.25 * r_j ^ 2]> (po_psi st);
       po_dr_psi := <[j := -0.5 * r_j]> (po_dr_psi st);
       po_dxi_psi := <[j := 0]> (po_dxi_psi st) |}
  else
    let i_p := idx !!! Z.to_nat i_last in
    {| po_i_last := i_last;
       po_psi :=
         <[j := sum_1_arr !!! i_p * ln r_j - sum_2_arr !!! i_p
                - 0.25 * r_j ^ 2]> (po_psi st);
       po_dr_psi := <[j := sum_1_arr !!! i_p / r_j - 0.5 * r_j]> (po_dr_psi st);
       po_dxi_psi := <[j := - sum_3_arr !!! i_p]> (po_dxi_psi st) |}.

Definition calculate_psi_and_derivatives (r_arr r pr q : list R)
  : list R * list R * list R :=
  let n_part := length r in
  let idx := argsort r in
  let st := probe_pass_run r q in
  let psi_part := (fun x => x + - psi_offset_probe r q) <$> pb_psi_part st in
  let '(sum_3_arr, sum_3) :=
    fold_left (sum_3_body r pr q psi_part) idx (np_zeros n_part, 0) in
  let n_points := length r_arr in
  let out :=
    fold_left (probe_body r_arr r idx (pb_sum_1_arr st) (pb_sum_2_arr st)
                          sum_3_arr)
              (seq 0 n_points)
              (ProbeOut 0 (np_zeros n_points) (np_zeros n_points)
                        (np_zeros n_points)) in
  let psi := (fun x => x - psi_offset_probe r q) <$> po_psi out in
  let dxi_psi := (fun x => x + sum_3) <$> po_dxi_psi out in
  (psi, po_dr_psi out, dxi_psi).

(** *** The recursion for [a_i], [b_i] *)

Definition sweep_body (r pr q gamma psi dr_psi dxi_psi b_theta_0 nabla_a
                         : list R) (st : sweep) (i : nat) : sweep :=
  let r_i := r !!! i in
  let pr_i := pr !!! i in
  let q_i := q !!! i in
  let gamma_i := gamma !!! i in
  let psi_i := psi !!! i in
  let dr_psi_i := dr_psi !!! i in
  let dxi_psi_i := dxi_psi !!! i in
  let b_theta_0_i := b_theta_0 !!! i in
  let nabla_a_i := nabla_a !!! i in
  let a := 1 + psi_i in
  let a2 := a * a in
  let a3 := a2 * a in
  let b := 1 / (r_i * a) in
  let c := 1 / (r_i * a2) in
  let pr_i2 := pr_i * pr_i in
  let A_i := q_i * b in
  let B_i := q_i * (- (gamma_i * dr_psi_i) * c
                    + (pr_i2 * dr_psi_i) / (r_i * a3)
                    + (pr_i * dxi_psi_i) * c
                    + pr_i2 / (r_i * r_i * a2)
                    + b_theta_0_i * b
                    + nabla_a_i * c * 0.5) in
  let C_i := q_i * (pr_i2 * c - (gamma_i / a - 1) / r_i) in
  let l_i := 1 + 0.5 * A_i * r_i in
  let m_i := 0.5 * A_i / r_i in
  let n_i := -0.5 * A_i * r_i ^ 3 in
  let o_i := 1 - 0.5 * A_i * r_i in
  let K_i := l_i * sw_K_im1 st + m_i * sw_U_im1 st in
  let U_i := n_i * sw_K_im1 st + o_i * sw_U_im1 st in
  let T_i := l_i * sw_T_im1 st + m_i * sw_P_im1 st
             + 0.5 * B_i + 0.25 * A_i * C_i in
  let P_i := n_i * sw_T_im1 st + o_i * sw_P_im1 st
             + r_i * (C_i - 0.5 * B_i * r_i - 0.25 * A_i * C_i * r_i) in
  {| sw_K := <[i := K_i]> (sw_K st);
     sw_U := <[i := U_i]> (sw_U st);
     sw_T := <[i := T_i]> (sw_T st);
     sw_P := <[i := P_i]> (sw_P st);
     sw_K_im1 := K_i; sw_U_im1 := U_i; sw_T_im1 := T_i; sw_P_im1 := P_i |}.

(** The forward sweep, from [K_0 = 1], [U_0 = T_0 = P_0 = 0]. *)
Definition forward_sweep (r pr q gamma psi dr_psi dxi_psi b_theta_0 nabla_a
                            : list R) : sweep :=
  let n_part := length r in
  fold_left
    (sweep_body r pr q gamma psi dr_psi dxi_psi b_theta_0 nabla_a)
    (argsort r)
    (Sweep (np_zeros n_part) (np_zeros n_part) (np_zeros n_part)
           (np_zeros n_part) 1 0 0 0).

Definition calculate_ai_bi (r pr q gamma psi dr_psi dxi_psi b_theta_0 nabla_a
                              : list R)
  : list R * list R * R * list nat :=
  let idx := argsort r in
  let st := forward_sweep r pr q gamma psi dr_psi dxi_psi b_theta_0 nabla_a in
  let a_0 := - sw_T_im1 st / sw_K_im1 st in
  let a_i := zip_with (fun K_i T_i => K_i * a_0 + T_i) (sw_K st) (sw_T st) in
  let b_i := zip_with (fun U_i P_i => U_i * a_0 + P_i) (sw_U st) (sw_P st) in
  (a_i, b_i, a_0, idx).

(** *** Azimuthal magnetic field of the plasma *)

Definition avg_body (a_i b_i : list R) (st : R * R * list R * list R)
           (i : nat) : R * R * list R * list R :=
  let '(a_im1, b_im1, a_i_avg, b_i_avg) := st in
  (a_i !!! i, b_i !!! i,
   <[i := 0.5 * (a_i !!! i + a_im1)]> a_i_avg,
   <[i := 0.5 * (b_i !!! i + b_im1)]> b_i_avg).

Definition calculate_b_theta_at_particles
           (r pr q gamma psi dr_psi dxi_psi b_theta_0 nabla_a : list R)
  : list R :=
  let '(a_i, b_i, a_0, idx) :=
    calculate_ai_bi r pr q gamma psi dr_psi dxi_psi b_theta_0 nabla_a in
  let n_part := length r in
  let '(_, _, a_i_avg, b_i_avg) :=
    fold_left (avg_body a_i b_i) idx
              (a_0, 0, np_zeros n_part, np_zeros n_part) in
  zip_with Rplus (zip_with Rmult a_i_avg r) (zip_with Rdiv b_i_avg r).

Definition b_theta_body (r_arr r : list R) (idx : list nat)
           (a_i b_i : list R) (a_0 : R) (st : Z * list R) (j : nat)
  : Z * list R :=
  let '(i_last, b_theta_mesh) := st in
  let r_j := r_arr !!! j in
  let i_last := scan_i_last r r_j idx 0 i_last in
  if decide (i_last = -1)%Z then
    (i_last, <[j := a_0 * r_j]> b_theta_mesh)
  else
    let i_p := idx !!! Z.to_nat i_last in
    (i_last, <[j := a_i !!! i_p * r_j + b_i !!! i_p / r_j]> b_theta_mesh).

Definition calculate_b_theta
           (r_arr r pr q gamma psi dr_psi dxi_psi b_theta_0 nabla_a : list R)
  : list R :=
  let '(a_i, b_i, a_0, idx) :=
    calculate_ai_bi r pr q gamma psi dr_psi dxi_psi b_theta_0 nabla_a in
  let n_points := length r_arr in
  snd (fold_left (b_theta_body r_arr r idx a_i b_i a_0) (seq 0 n_points)
                 (0%Z, np_zeros n_points)).

(** *** Equations of motion *)

(** The loop of lines 311-314 of [calculate_derivatives]. *)
Definition derivatives_gamma (n_part : nat) (pr a2 psi : list R) : list R :=
  fold_left
    (fun gamma i =>
       let psi_i := psi !!! i in
       <[i := (1 + pr !!! i ^ 2 + a2 !!! i + (1 + psi_i) ^ 2)
              / (2 * (1 + psi_i))]> gamma)
    (seq 0 n_part) (np_empty n_part).

Definition derivatives_body (dxi : R)
           (pr gamma psi dr_psi b_theta_bar b_theta_0 nabla_a : list R)
           (st : list R * list R) (i : nat) : list R * list R :=
  let '(dr, dpr) := st in
  let psi_i := psi !!! i in
  let dpr := <[i := dxi * (gamma !!! i * dr_psi !!! i / (1 + psi_i)
                           - b_theta_bar !!! i
                           - b_theta_0 !!! i
                           - nabla_a !!! i / (2 * (1 + psi_i)))]> dpr in
  let dr := <[i := dxi * pr !!! i / (1 + psi_i)]> dr in
  (dr, dpr).

Definition calculate_derivatives (dxi : R) (r pr q b_theta_0 nabla_a a2
                                           : list R) : list R * list R :=
  let n_part := length r in
  let '(psi, dr_psi, dxi_psi) :=
    calculate_psi_and_derivatives_at_particles r pr q in
  let gamma := derivatives_gamma n_part pr a2 psi in
  let b_theta_bar :=
    calculate_b_theta_at_particles r pr q gamma psi dr_psi dxi_psi
                                   b_theta_0 nabla_a in
  fold_left
    (derivatives_body dxi pr gamma psi dr_psi b_theta_bar b_theta_0 nabla_a)
    (seq 0 n_part) (np_empty n_part, np_empty n_part).

Definition motion_derivatives (dxi xi : R) (r pr q : list R)
           (laser : option laser_params) (s_d : R) : list R * list R :=
  let '(r, pr) := reflect_negative r pr in
  let xi_si := xi * s_d in
  let r_si := (fun x => x * s_d) <$> r in
  let '(nabla_a, a2) :=
    match laser with
    | Some lp =>
        ((fun x => x * s_d) <$> get_nabla_a xi_si r_si lp,
         get_a2 xi_si r_si lp)
    | None => (np_zeros (length r), np_zeros (length r))
    end in
  let b_theta_0 := beam_source r xi in
  calculate_derivatives dxi r pr q b_theta_0 nabla_a a2.

(** *** Runge-Kutta update *)

Definition rk4_body (Ar Br Cr Dr Apr Bpr Cpr Dpr : list R) (inv_6 : R)
           (st : list R * list R) (i : nat) : list R * list R :=
  let '(r, pr) := st in
  let r := <[i := r !!! i
                  + (Ar !!! i + 2 * (Br !!! i + Cr !!! i) + Dr !!! i) * inv_6]> r in
  let pr := <[i := pr !!! i
                   + (Apr !!! i + 2 * (Bpr !!! i + Cpr !!! i) + Dpr !!! i)
                     * inv_6]> pr in
  (r, pr).

Definition update_particles_rk4 (r pr Ar Br Cr Dr Apr Bpr Cpr Dpr : list R)
  : list R * list R :=
  let inv_6 := 1 / 6 in
  let '(r, pr) :=
    fold_left (rk4_body Ar Br Cr Dr Apr Bpr Cpr Dpr inv_6)
              (seq 0 (length r)) (r, pr) in
  reflect_negative r pr.

Definition evolve_plasma (r pr q : list R) (xi dxi : R)
           (laser : option laser_params) (s_d : R) : list R * list R :=
  let '(Ar, Apr) := motion_derivatives dxi xi r pr q laser s_d in
  let '(Br, Bpr) :=
    motion_derivatives dxi (xi - dxi / 2)
                       (zip_with (fun x k => x + k / 2) r Ar)
                       (zip_with (fun x k => x + k / 2) pr Apr) q laser s_d in
  let '(Cr, Cpr) :=
    motion_derivatives dxi (xi - dxi / 2)
                       (zip_with (fun x k => x + k / 2) r Br)
                       (zip_with (fun x k => x + k / 2) pr Bpr) q laser s_d in
  let '(Dr, Dpr) :=
    motion_derivatives dxi (xi - dxi)
                       (zip_with Rplus r Cr) (zip_with Rplus pr Cpr)
                       q laser s_d in
  update_particles_rk4 r pr Ar Br Cr Dr Apr Bpr Cpr Dpr.

(** *** Fields at the probe radii *)

(** Line 407 of [calculate_fields]. *)
Definition fields_gamma (pr a2 psi : list R) : list R :=
  zip_with (fun '(pr_i, a2_i) psi_i =>
              (1 + pr_i ^ 2 + a2_i / 2 + (1 + psi_i) ^ 2) / (2 * (1 + psi_i)))
           (zip pr a2) psi.

Definition calculate_fields (r_arr : list R) (xi : R) (r pr q : list R)
           (laser : option laser_params) (s_d : R)
  : list R * list R * list R * list R * list R :=
  let xi_si := xi * s_d in
  let r_si := (fun x => x * s_d) <$> r in
  let '(nabla_a, a2) :=
    match laser with
    | Some lp =>
        ((fun x => x * s_d) <$> get_nabla_a xi_si r_si lp,
         get_a2 xi_si r_si lp)
    | None => (np_zeros (length r), np_zeros (length r))
    end in
  let b_theta_0 := beam_source r xi in
  let '(psi, dr_psi, dxi_psi) :=
    calculate_psi_and_derivatives_at_particles r pr q in
  let gamma := fields_gamma pr a2 psi in
  let b_theta_0_r := beam_source r_arr xi in
  let '(psi_r, dr_psi_r, dxi_psi_r) :=
    calculate_psi_and_derivatives r_arr r pr q in
  let b_theta_bar_r :=
    calculate_b_theta r_arr r pr q gamma psi dr_psi dxi_psi b_theta_0
                      nabla_a in
  (psi_r, dr_psi_r, dxi_psi_r, b_theta_bar_r, b_theta_0_r).

(** *** The xi-stepping driver *)

(** [np.where(r <= bound)]. *)
Definition np_where_le (r : list R) (bound : R) : list nat :=
  filter (fun i => r !!! i <= bound) (seq 0 (length r)).

(** Lines 135-140: removal of the particles beyond [r_max + 0.1]. *)
Definition remove_outside (r_max : R) (r pr gamma q : list R) : plasma :=
  let idx_keep := np_where_le r (r_max + 0.1) in
  Plasma (take_idx r idx_keep) (take_idx pr idx_keep)
         (take_idx gamma idx_keep) (take_idx q idx_keep).

(** One iteration of the main loop, for the loop index [step].  The result
    is the new plasma column and the new meshes, or [None] in place of the
    meshes when the iteration leaves the loop by [break].

    The two deposition calls of the iteration fill [rho] and [chi], which
    the function never reads again; they are left out. *)
Definition xi_step (r_max xi_max dxi s_d : R) (n_xi : nat) (r_arr : list R)
           (laser : option laser_params) (p : plasma) (m : meshes)
           (step : nat) : plasma * option meshes :=
  let xi := xi_max - dxi * INR step in
  let '(r, pr) := evolve_plasma (pl_r p) (pl_pr p) (pl_q p) xi dxi laser s_d in
  let p' := remove_outside r_max r pr (pl_gamma p) (pl_q p) in
  if decide (length (pl_r p') = 0)%nat then (p', None)
  else
    let '(psi_r, dr_psi_r, dxi_psi_r, b_theta_bar_r, b_theta_0_r) :=
      calculate_fields r_arr xi (pl_r p') (pl_pr p') (pl_q p') laser s_d in
    (* i = -1 - step, counted from the end of the xi axis *)
    let i := (n_xi - 1 - step)%nat in
    (p', Some {| psi_mesh := set_col (psi_mesh m) i psi_r;
                 dr_psi_mesh := set_col (dr_psi_mesh m) i dr_psi_r;
                 dxi_psi_mesh := set_col (dxi_psi_mesh m) i dxi_psi_r;
                 b_theta_bar_mesh := set_col (b_theta_bar_mesh m) i b_theta_bar_r;
                 b_theta_0_mesh := set_col (b_theta_0_mesh m) i b_theta_0_r |}).

(** The main loop over the remaining loop indices [steps].  The third
    component records the index at which the loop was left by [break]. *)
Fixpoint xi_loop (r_max xi_max dxi s_d : R) (n_xi : nat) (r_arr : list R)
         (laser : option laser_params) (steps : list nat)
         (p : plasma) (m : meshes) : plasma * meshes * option nat :=
  match steps with
  | [] => (p, m, None)
  | step :: steps' =>
      match xi_step r_max xi_max dxi s_d n_xi r_arr laser p m step with
      | (p', None) => (p', m, Some step)
      | (p', Some m') =>
          xi_loop r_max xi_max dxi s_d n_xi r_arr laser steps' p' m'
      end
  end.


(** Lines 90-96 of [calculate_wakefields]: the plasma column at [xi_max],
    for the normalised [r_max]. *)
Definition initial_plasma (r_max : R) (n_r ppc : nat) : plasma :=
  let dr := r_max / INR n_r in
  let dr_p := dr / INR ppc in
  let n_part := (n_r * ppc)%nat in
  let r := np_linspace (dr_p / 2) (r_max - dr_p / 2) n_part in
  let pr := np_zeros (length r) in
  let gamma := np_ones (length r) in
  let q := (fun x => dr_p * x) <$> r in
  Plasma r pr gamma q.

(** *** The return path of the driver *)

(** [np.gradient(f, h, axis=axis, edge_order=2)] on a two-dimensional
    array.  NumPy raises [ValueError] when [f] has fewer than
    [edge_order + 1 = 3] entries along an axis it differentiates; the test
    is written out in [calculate_wakefields_return], the values are those of
    this function.  [np.gradient(f, dr, dxi, edge_order=2)] is the pair of
    the gradients along axis 0 and along axis 1. *)
Variable np_gradient : nat -> R -> list (list R) -> list (list R).






(** *** Notions used to state the properties *)

(** The laser parameters with which [get_nabla_a] and [get_a2] divide by no
    zero. *)
Definition laser_defined (laser : option laser_params) : Prop :=
  match laser with
  | Some lp => 0 < w_0 lp /\ 0 < l_0 lp /\ 0 < tau lp /\ 0 < ct_c
  | None => True
  end.

(** The columns and source terms on which the field solver at the particles
    ([calculate_psi_and_derivatives_at_particles], then [calculate_ai_bi]
    with the Lorentz factors [gamma_of psi]) reads within its arrays and
    divides by no zero: a non-empty column, arrays of one length, positive
    radii, [1 + psi_i] and the last coefficient [K_N] of the sweep
    non-zero. *)
Definition field_solver_defined (r pr q b_theta_0 nabla_a : list R)
           (gamma_of : list R -> list R) : Prop :=
  r <> [] /\ length pr = length r /\ length q = length r /\
  length b_theta_0 = length r /\
  (forall i, (i < length r)%nat -> 0 < r !!! i) /\
  let '(psi, dr_psi, dxi_psi) :=
    calculate_psi_and_derivatives_at_particles r pr q in
  (forall i, (i < length r)%nat -> 1 + psi !!! i <> 0) /\
  sw_K_im1 (forward_sweep r pr q (gamma_of psi) psi dr_psi dxi_psi
                          b_theta_0 nabla_a) <> 0.

(** The inputs on which [motion_derivatives] raises no error. *)
Definition motion_defined (xi : R) (r pr q : list R)
           (laser : option laser_params) (s_d : R) : Prop :=
  laser_defined laser /\ length pr = length r /\
  let '(r, pr) := reflect_negative r pr in
  let xi_si := xi * s_d in
  let r_si := (fun x => x * s_d) <$> r in
  let '(nabla_a, a2) :=
    match laser with
    | Some lp =>
        ((fun x => x * s_d) <$> get_nabla_a xi_si r_si lp,
         get_a2 xi_si r_si lp)
    | None => (np_zeros (length r), np_zeros (length r))
    end in
  field_solver_defined r pr q (beam_source r xi) nabla_a
                       (derivatives_gamma (length r) pr a2).

(** The columns on which the field solver at the probe radii
    ([calculate_psi_and_derivatives]) divides by no zero in its sum over
    the particles (line 529): [1 + psi_part_i] is non-zero.  At the probe
    radii themselves it divides by [r_j] only where a particle lies strictly
    inside [r_j], and [calculate_b_theta] likewise, so that positive
    particle radii are enough there. *)
Definition probe_solver_defined (r q : list R) : Prop :=
  let psi_part :=
    (fun x => x + - psi_offset_probe r q) <$> pb_psi_part (probe_pass_run r q)
  in
  forall i, (i < length r)%nat -> 1 + psi_part !!! i <> 0.

(** The inputs on which [calculate_fields] raises no error. *)
Definition fields_defined (xi : R) (r pr q : list R)
           (laser : option laser_params) (s_d : R) : Prop :=
  laser_defined laser /\ probe_solver_defined r q /\
  let xi_si := xi * s_d in
  let r_si := (fun x => x * s_d) <$> r in
  let '(nabla_a, a2) :=
    match laser with
    | Some lp =>
        ((fun x => x * s_d) <$> get_nabla_a xi_si r_si lp,
         get_a2 xi_si r_si lp)
    | None => (np_zeros (length r), np_zeros (length r))
    end in
  field_solver_defined r pr q (beam_source r xi) nabla_a
                       (fields_gamma pr a2).




(** The total charge of the column and its logarithmic moment. *)
Definition total_charge (r q : list R) : R :=
  Rsum ((fun i => q !!! i) <$> seq 0 (length r)).

Definition total_charge_log (r q : list R) : R :=
  Rsum ((fun i => q !!! i * ln (r !!! i)) <$> seq 0 (length r)).









(** * Properties *)

(** ** Loops as folds *)

(** Invariant rule for [for k in range(n)]. *)
Lemma fold_left_range_inv {S : Type} (body : S -> nat -> S)
      (Inv : nat -> S -> Prop) (n : nat) (s0 : S) :
  Inv 0%nat s0 ->
  (forall k s, (k < n)%nat -> Inv k s -> Inv (Datatypes.S k) (body s k)) ->
  Inv n (fold_left body (seq 0 n) s0).
Proof.
  intros H0 Hstep.
  assert (Hgen : forall m, (m <= n)%nat -> Inv m (fold_left body (seq 0 m) s0)).
  { induction m as [|m IH]; intros Hm; [exact H0|].
    rewrite seq_S, fold_left_app. simpl.
    apply Hstep; [lia | apply IH; lia]. }
  apply Hgen. lia.
Qed.


(** Reading an array after a write. *)
Lemma lookup_insert_same_value (l : list R) (i j : nat) (v : R) :
  (i = j -> v = l !!! j) -> <[i := v]> l !!! j = l !!! j.
Proof.
  intros Hv. rewrite list_lookup_total_insert.
  destruct (decide (i = j /\ (i < length l)%nat)) as [[-> _]|]; auto.
Qed.

(** Reading an elementwise combination of two arrays. *)
Lemma zip_with_lookup_R (f : R -> R -> R) (l k : list R) (i : nat) :
  (i < length l)%nat -> (i < length k)%nat ->
  zip_with f l k !!! i = f (l !!! i) (k !!! i).
Proof. apply lookup_total_zip_with. Qed.

(** Reading an elementwise function of an array. *)
Lemma fmap_lookup_R (f : R -> R) (l : list R) (i : nat) :
  (i < length l)%nat -> (f <$> l) !!! i = f (l !!! i).
Proof. apply list_lookup_total_fmap. Qed.

(** ** The Boris momentum push *)

(** With all six field components zero, the loop body of [push_momentum]
    writes back the momentum it has read. *)
Lemma push_momentum_body_zero_field (ct_c0 k : R)
      (ex ey ez bx by_ bz : list R) (p : momenta) (i j : nat) :
  ex !!! j = 0 -> ey !!! j = 0 -> ez !!! j = 0 ->
  bx !!! j = 0 -> by_ !!! j = 0 -> bz !!! j = 0 ->
  let p' := push_momentum_body ct_c0 k ex ey ez bx by_ bz p i in
  mom_px p' !!! j = mom_px p !!! j /\
  mom_py p' !!! j = mom_py p !!! j /\
  mom_pz p' !!! j = mom_pz p !!! j.
Proof.
  intros Hex Hey Hez Hbx Hby Hbz. unfold push_momentum_body. simpl.
  repeat split; apply lookup_insert_same_value; intros ->;
    rewrite Hex, Hey, Hez, Hbx, Hby, Hbz; ring.
Qed.

(** C10. For every particle index [i] whose six gathered field components
    (ex, ey, ez, bx, by, bz) are all zero, [push_momentum] leaves the
    momentum (px_i, py_i, pz_i) of that particle exactly unchanged. *)
Theorem C10_push_momentum_zero_field (ct_e ct_m_e ct_c0 dt : R)
        (px py pz ex ey ez bx by_ bz : list R) (i : nat) :
  (i < length px)%nat ->
  ex !!! i = 0 -> ey !!! i = 0 -> ez !!! i = 0 ->
  bx !!! i = 0 -> by_ !!! i = 0 -> bz !!! i = 0 ->
  let p := push_momentum ct_e ct_m_e ct_c0 px py pz ex ey ez bx by_ bz dt in
  mom_px p !!! i = px !!! i /\
  mom_py p !!! i = py !!! i /\
  mom_pz p !!! i = pz !!! i.
Proof.
  intros _ Hex Hey Hez Hbx Hby Hbz. unfold push_momentum. simpl.
  apply (fold_left_range_inv _
           (fun _ p => mom_px p !!! i = px !!! i /\
                       mom_py p !!! i = py !!! i /\
                       mom_pz p !!! i = pz !!! i)).
  - simpl. auto.
  - intros k s _ (Hx & Hy & Hz).
    destruct (push_momentum_body_zero_field
                ct_c0 (- ct_e * dt / (ct_m_e * 2 * ct_c0))
                ex ey ez bx by_ bz s k i Hex Hey Hez Hbx Hby Hbz)
      as (Hx' & Hy' & Hz').
    rewrite Hx', Hy', Hz'. auto.
Qed.

(** ** Reflection at the axis *)

Lemma lookup_total_beyond (l : list R) (i : nat) :
  (length l <= i)%nat -> l !!! i = 0.
Proof.
  intros Hi. rewrite list_lookup_total_alt.
  rewrite (lookup_ge_None_2 l i Hi). reflexivity.
Qed.

Lemma length_negate_at (idx : list nat) (a : list R) :
  length (negate_at a idx) = length a.
Proof.
  unfold negate_at. revert a.
  induction idx as [|j idx IH]; intros a; simpl; [reflexivity|].
  rewrite IH. apply length_insert.
Qed.

Lemma negate_at_lookup (idx : list nat) (a : list R) (i : nat) :
  NoDup idx ->
  negate_at a idx !!! i = if decide (i ∈ idx) then - a !!! i else a !!! i.
Proof.
  unfold negate_at. revert a.
  induction idx as [|j idx IH]; intros a Hnd; simpl.
  - destruct (decide (i ∈ [])) as [Hin|_]; [inversion Hin | reflexivity].
  - apply NoDup_cons in Hnd as [Hj Hnd]. rewrite (IH _ Hnd).
    destruct (decide (i = j)) as [->|Hij].
    + destruct (decide (j ∈ idx)) as [?|_]; [contradiction|].
      destruct (decide (j ∈ j :: idx)) as [_|Hn];
        [|exfalso; apply Hn; left].
      destruct (Nat.lt_ge_cases j (length a)) as [Hlt|Hge].
      * rewrite list_lookup_total_insert_eq by exact Hlt. lra.
      * rewrite list_insert_ge by exact Hge.
        rewrite lookup_total_beyond by exact Hge. lra.
    + rewrite list_lookup_total_insert_ne by congruence.
      destruct (decide (i ∈ idx)) as [Hin|Hin];
        destruct (decide (i ∈ j :: idx)) as [Hin'|Hin']; try reflexivity.
      * exfalso. apply Hin'. right. exact Hin.
      * exfalso. apply elem_of_cons in Hin' as [?|?]; contradiction.
Qed.

Lemma elem_of_np_where_neg (r : list R) (i : nat) :
  i ∈ np_where_neg r <-> r !!! i < 0 /\ (i < length r)%nat.
Proof.
  unfold np_where_neg. rewrite list_elem_of_filter, elem_of_seq.
  split; intros [? ?]; split; auto; lia.
Qed.

Lemma NoDup_np_where_neg (r : list R) : NoDup (np_where_neg r).
Proof. apply NoDup_filter, NoDup_seq. Qed.

Lemma reflect_negative_length (r pr : list R) :
  length (reflect_negative r pr).1 = length r /\
  length (reflect_negative r pr).2 = length pr.
Proof.
  unfold reflect_negative.
  destruct (decide (0 < length (np_where_neg r))%nat); simpl;
    rewrite ?length_negate_at; auto.
Qed.

(** Pointwise reading of [reflect_negative]. *)
Lemma reflect_negative_lookup (r pr : list R) (i : nat) :
  (i < length r)%nat ->
  (reflect_negative r pr).1 !!! i
  = (if decide (r !!! i < 0) then - r !!! i else r !!! i) /\
  (reflect_negative r pr).2 !!! i
  = (if decide (r !!! i < 0) then - pr !!! i else pr !!! i).
Proof.
  intros Hi. unfold reflect_negative.
  destruct (decide (0 < length (np_where_neg r))%nat) as [Hpos|Hnone]; simpl.
  - rewrite !negate_at_lookup by apply NoDup_np_where_neg.
    destruct (decide (i ∈ np_where_neg r)) as [Hin|Hin];
      destruct (decide (r !!! i < 0)) as [Hneg|Hneg]; auto.
    + apply elem_of_np_where_neg in Hin as [? _]. contradiction.
    + exfalso. apply Hin. apply elem_of_np_where_neg. auto.
  - destruct (decide (r !!! i < 0)) as [Hneg|Hneg]; auto.
    exfalso. apply Hnone.
    assert (Hin : i ∈ np_where_neg r) by (apply elem_of_np_where_neg; auto).
    destruct (np_where_neg r); [inversion Hin | simpl; lia].
Qed.



(** ** The Runge-Kutta update *)

(** The push loop of [update_particles_rk4], read pointwise. *)
Lemma rk4_push_lookup (Ar Br Cr Dr Apr Bpr Cpr Dpr : list R) (inv_6 : R)
      (r pr : list R) :
  length pr = length r ->
  let st := fold_left (rk4_body Ar Br Cr Dr Apr Bpr Cpr Dpr inv_6)
                      (seq 0 (length r)) (r, pr) in
  length st.1 = length r /\ length st.2 = length r /\
  forall i, (i < length r)%nat ->
    st.1 !!! i
    = r !!! i + (Ar !!! i + 2 * (Br !!! i + Cr !!! i) + Dr !!! i) * inv_6 /\
    st.2 !!! i
    = pr !!! i + (Apr !!! i + 2 * (Bpr !!! i + Cpr !!! i) + Dpr !!! i) * inv_6.
Proof.
  intros Hlen. simpl.
  pose (new_r := fun i =>
    r !!! i + (Ar !!! i + 2 * (Br !!! i + Cr !!! i) + Dr !!! i) * inv_6).
  pose (new_pr := fun i =>
    pr !!! i + (Apr !!! i + 2 * (Bpr !!! i + Cpr !!! i) + Dpr !!! i) * inv_6).
  pose (Inv := fun (k : nat) (st : list R * list R) =>
    length st.1 = length r /\ length st.2 = length r /\
    (forall i, (i < k)%nat -> st.1 !!! i = new_r i /\ st.2 !!! i = new_pr i) /\
    (forall i, (k <= i)%nat -> st.1 !!! i = r !!! i /\ st.2 !!! i = pr !!! i)).
  assert (Hinv :
    Inv (length r)
        (fold_left (rk4_body Ar Br Cr Dr Apr Bpr Cpr Dpr inv_6)
                   (seq 0 (length r)) (r, pr))).
  { apply (fold_left_range_inv _ Inv); unfold Inv.
    - simpl. repeat split; auto; lia.
    - intros k [r1 pr1] Hk (Hl1 & Hl2 & Hdone & Htodo). simpl in *.
      rewrite !length_insert. repeat split; auto.
      + destruct (decide (i = k)) as [->|Hne].
        * rewrite list_lookup_total_insert_eq by lia.
          destruct (Htodo k (Nat.le_refl k)) as [-> _]. reflexivity.
        * rewrite list_lookup_total_insert_ne by congruence.
          apply Hdone. lia.
      + destruct (decide (i = k)) as [->|Hne].
        * rewrite list_lookup_total_insert_eq by lia.
          destruct (Htodo k (Nat.le_refl k)) as [_ ->]. reflexivity.
        * rewrite list_lookup_total_insert_ne by congruence.
          apply Hdone. lia.
      + rewrite list_lookup_total_insert_ne by lia. apply Htodo. lia.
      + rewrite list_lookup_total_insert_ne by lia. apply Htodo. lia. }
  destruct Hinv as (Hl1 & Hl2 & Hdone & _).
  repeat split; auto; apply Hdone; assumption.
Qed.






(** ** The Lorentz factor *)

Lemma derivatives_gamma_lookup (pr a2 psi : list R) (n_part i : nat) :
  (i < n_part)%nat ->
  derivatives_gamma n_part pr a2 psi !!! i
  = (1 + pr !!! i ^ 2 + a2 !!! i + (1 + psi !!! i) ^ 2)
    / (2 * (1 + psi !!! i)).
Proof.
  intros Hi. unfold derivatives_gamma.
  pose (g := fun i => (1 + pr !!! i ^ 2 + a2 !!! i + (1 + psi !!! i) ^ 2)
                      / (2 * (1 + psi !!! i))).
  pose (Inv := fun (k : nat) (gamma : list R) =>
    length gamma = n_part /\ forall j, (j < k)%nat -> gamma !!! j = g j).
  assert (H : Inv n_part
                  (fold_left (fun gamma i => <[i := g i]> gamma)
                             (seq 0 n_part) (np_empty n_part))).
  { apply (fold_left_range_inv _ Inv); unfold Inv.
    - split; [apply length_replicate | intros; lia].
    - intros k gamma Hk [Hl Hd]. rewrite length_insert. split; [exact Hl|].
      intros j Hj. destruct (decide (j = k)) as [->|Hne].
      + apply list_lookup_total_insert_eq. lia.
      + rewrite list_lookup_total_insert_ne by congruence. apply Hd. lia. }
  destruct H as [_ H]. apply (H i Hi).
Qed.

Lemma fields_gamma_lookup (pr a2 psi : list R) (i : nat) :
  (i < length pr)%nat -> (i < length a2)%nat -> (i < length psi)%nat ->
  fields_gamma pr a2 psi !!! i
  = (1 + pr !!! i ^ 2 + a2 !!! i / 2 + (1 + psi !!! i) ^ 2)
    / (2 * (1 + psi !!! i)).
Proof.
  intros H1 H2 H3. unfold fields_gamma.
  rewrite (lookup_total_zip_with _ (zip pr a2) psi i)
    by (rewrite ?length_zip; lia).
  rewrite (lookup_total_zip_with _ pr a2 i) by lia. reflexivity.
Qed.

(** C1. In [calculate_derivatives] the Lorentz factor of particle [i] is
    (1 + pr_i^2 + a2_i + (1+psi_i)^2) / (2 (1+psi_i)), the laser term with
    coefficient 1; in [calculate_fields] the laser term enters as a2_i / 2.
    With pr = [0], a2 = [2], psi = [0] the former gives 2, as the formula
    (1 + 0 + 2 + 1) / 2 does, and the latter gives 3/2. *)
Theorem C1_gamma_in_calculate_fields :
  (forall (pr a2 psi : list R) (i : nat),
      (i < length pr)%nat -> (i < length a2)%nat -> (i < length psi)%nat ->
      derivatives_gamma (length pr) pr a2 psi !!! i
      = (1 + pr !!! i ^ 2 + a2 !!! i + (1 + psi !!! i) ^ 2)
        / (2 * (1 + psi !!! i)) /\
      fields_gamma pr a2 psi !!! i
      = (1 + pr !!! i ^ 2 + a2 !!! i / 2 + (1 + psi !!! i) ^ 2)
        / (2 * (1 + psi !!! i))) /\
  derivatives_gamma 1 [0] [2] [0] !!! 0%nat = 2 /\
  fields_gamma [0] [2] [0] !!! 0%nat = 3 / 2 /\
  fields_gamma [0] [2] [0] !!! 0%nat
  <> (1 + [0] !!! 0%nat ^ 2 + [2] !!! 0%nat + (1 + [0] !!! 0%nat) ^ 2)
     / (2 * (1 + [0] !!! 0%nat)).
Proof.
  split; [|split; [|split]].
  - intros pr a2 psi i H1 H2 H3. split.
    + apply derivatives_gamma_lookup. exact H1.
    + apply fields_gamma_lookup; assumption.
  - rewrite derivatives_gamma_lookup by (simpl; lia). simpl. lra.
  - rewrite fields_gamma_lookup by (simpl; lia). simpl. lra.
  - rewrite fields_gamma_lookup by (simpl; lia). simpl. lra.
Qed.

(** ** Sort permutations *)

Lemma is_argsort_length (r : list R) (idx : list nat) :
  is_argsort r idx -> length idx = length r.
Proof.
  intros [Hp _]. rewrite (Permutation_length Hp). apply length_seq.
Qed.

Lemma is_argsort_elem (r : list R) (idx : list nat) (i : nat) :
  is_argsort r idx -> i ∈ idx <-> (i < length r)%nat.
Proof.
  intros [Hp _]. rewrite Hp, elem_of_seq. lia.
Qed.

Lemma is_argsort_lt (r : list R) (idx : list nat) (k : nat) :
  is_argsort r idx -> (k < length idx)%nat -> (idx !!! k < length r)%nat.
Proof.
  intros Hs Hk. apply (is_argsort_elem r idx); [exact Hs|].
  apply list_elem_of_lookup_total_2. exact Hk.
Qed.


(** [idx[-1]] of an index array with last element [x]. *)
Lemma lookup_total_snoc_last (pre : list nat) (x : nat) :
  (pre ++ [x]) !!! (length (pre ++ [x]) - 1)%nat = x.
Proof.
  rewrite length_app. simpl.
  rewrite lookup_total_app_r by lia.
  replace (length pre + 1 - 1 - length pre)%nat with 0%nat by lia. reflexivity.
Qed.

(** ** The recursion for [a_i], [b_i] *)

Lemma sweep_fold_length (r pr q gamma psi dr_psi dxi_psi b_theta_0 nabla_a
                           : list R) (idx : list nat) (s0 : sweep) :
  let st := fold_left
              (sweep_body r pr q gamma psi dr_psi dxi_psi b_theta_0 nabla_a)
              idx s0 in
  length (sw_K st) = length (sw_K s0) /\ length (sw_U st) = length (sw_U s0) /\
  length (sw_T st) = length (sw_T s0) /\ length (sw_P st) = length (sw_P s0).
Proof.
  simpl. revert s0. induction idx as [|i idx IH]; intros s0; simpl; [auto|].
  destruct (IH (sweep_body r pr q gamma psi dr_psi dxi_psi b_theta_0 nabla_a
                           s0 i)) as (HK & HU & HT & HP).
  rewrite HK, HU, HT, HP. simpl. rewrite !length_insert. auto.
Qed.

(** The last iteration of the sweep leaves in [K], [U], [T], [P], at its
    particle, the final values of the running coefficients. *)
Lemma sweep_snoc (r pr q gamma psi dr_psi dxi_psi b_theta_0 nabla_a : list R)
      (pre : list nat) (x : nat) (s0 : sweep) :
  (x < length (sw_K s0))%nat -> (x < length (sw_U s0))%nat ->
  (x < length (sw_T s0))%nat -> (x < length (sw_P s0))%nat ->
  let st := fold_left
              (sweep_body r pr q gamma psi dr_psi dxi_psi b_theta_0 nabla_a)
              (pre ++ [x]) s0 in
  sw_K st !!! x = sw_K_im1 st /\ sw_U st !!! x = sw_U_im1 st /\
  sw_T st !!! x = sw_T_im1 st /\ sw_P st !!! x = sw_P_im1 st.
Proof.
  intros HK HU HT HP. simpl. rewrite fold_left_app. simpl.
  destruct (sweep_fold_length r pr q gamma psi dr_psi dxi_psi b_theta_0 nabla_a
              pre s0) as (LK & LU & LT & LP).
  simpl in LK, LU, LT, LP.
  repeat split; apply list_lookup_total_insert_eq; lia.
Qed.

(** After the sweep, the entries of [K], [U], [T], [P] at the last sorted
    particle are the final values of the running coefficients. *)
Lemma forward_sweep_last (r pr q gamma psi dr_psi dxi_psi b_theta_0 nabla_a
                            : list R) :
  r <> [] -> is_argsort r (argsort r) ->
  let st := forward_sweep r pr q gamma psi dr_psi dxi_psi b_theta_0 nabla_a in
  let i_N := argsort r !!! (length (argsort r) - 1)%nat in
  sw_K st !!! i_N = sw_K_im1 st /\ sw_U st !!! i_N = sw_U_im1 st /\
  sw_T st !!! i_N = sw_T_im1 st /\ sw_P st !!! i_N = sw_P_im1 st.
Proof.
  intros Hne Hs. simpl.
  assert (Hlen : length (argsort r) = length r)
    by (apply is_argsort_length; exact Hs).
  assert (Hidx : argsort r <> []).
  { intros E. rewrite E in Hlen. destruct r; [congruence | discriminate]. }
  assert (HiN : (argsort r !!! (length (argsort r) - 1)%nat < length r)%nat).
  { apply is_argsort_lt; [exact Hs|].
    destruct (argsort r); [congruence | simpl; lia]. }
  unfold forward_sweep. revert HiN.
  destruct (exists_last Hidx) as (pre & x & ->).
  rewrite lookup_total_snoc_last. intros Hx.
  apply sweep_snoc; simpl; unfold np_zeros; rewrite length_replicate; exact Hx.
Qed.

(** C4. For a non-empty plasma column with positive radii whose final
    recursion coefficient K_N is non-zero, the forward sweep of the (K, U, T, P) recursion, started
    from K_0 = 1, U_0 = T_0 = P_0 = 0 and followed by a_0 = - T_N / K_N,
    yields a_i = K_i a_0 + T_i that is exactly zero at the outermost sorted
    particle: a_N = 0, by one sweep and one division. *)
Theorem C4_boundary_closure (r pr q gamma psi dr_psi dxi_psi b_theta_0 nabla_a
                               : list R) :
  r <> [] -> is_argsort r (argsort r) ->
  (forall i, (i < length r)%nat -> 0 < r !!! i) ->
  let st := forward_sweep r pr q gamma psi dr_psi dxi_psi b_theta_0 nabla_a in
  sw_K_im1 st <> 0 ->
  let '(a_i, b_i, a_0, idx) :=
    calculate_ai_bi r pr q gamma psi dr_psi dxi_psi b_theta_0 nabla_a in
  let i_N := idx !!! (length idx - 1)%nat in
  a_0 = - sw_T_im1 st / sw_K_im1 st /\
  (forall i, (i < length r)%nat ->
             a_i !!! i = sw_K st !!! i * a_0 + sw_T st !!! i) /\
  (forall i, (i < length r)%nat -> r !!! i <= r !!! i_N) /\
  sw_K st !!! i_N = sw_K_im1 st /\ sw_T st !!! i_N = sw_T_im1 st /\
  a_i !!! i_N = 0.
Proof.
  intros Hne Hs Hpos st HK. unfold calculate_ai_bi. fold st.
  assert (Hlen : length (argsort r) = length r)
    by (apply is_argsort_length; exact Hs).
  assert (Hn : (0 < length r)%nat).
  { destruct r; [congruence | simpl; lia]. }
  assert (HiN : (argsort r !!! (length (argsort r) - 1)%nat < length r)%nat).
  { apply is_argsort_lt; [exact Hs | lia]. }
  destruct (sweep_fold_length r pr q gamma psi dr_psi dxi_psi b_theta_0 nabla_a
              (argsort r)
              (Sweep (np_zeros (length r)) (np_zeros (length r))
                     (np_zeros (length r)) (np_zeros (length r)) 1 0 0 0))
    as (LK & _ & LT & _).
  simpl in LK, LT. unfold np_zeros in LK, LT.
  rewrite length_replicate in LK, LT.
  change (fold_left _ _ _) with st in LK, LT.
  destruct (forward_sweep_last r pr q gamma psi dr_psi dxi_psi b_theta_0
              nabla_a Hne Hs) as (EK & _ & ET & _).
  fold st in EK, ET.
  assert (Hai : forall i, (i < length r)%nat ->
            zip_with (fun K_i T_i => K_i * (- sw_T_im1 st / sw_K_im1 st) + T_i)
                     (sw_K st) (sw_T st) !!! i
            = sw_K st !!! i * (- sw_T_im1 st / sw_K_im1 st) + sw_T st !!! i).
  { intros i Hi. rewrite zip_with_lookup_R by lia. reflexivity. }
  repeat split; auto.
  - intros i Hi.
    destruct (proj1 (list_elem_of_lookup_total (argsort r) i)) as (k & Hk & <-).
    { apply (is_argsort_elem r); assumption. }
    apply (proj2 Hs); lia.
  - rewrite Hai by exact HiN. rewrite EK, ET. field. exact HK.
Qed.

(** ** Sums over the sorted column *)

Lemma Rsum_cons (x : R) (l : list R) : Rsum (x :: l) = x + Rsum l.
Proof. reflexivity. Qed.

Lemma Rsum_app (l k : list R) : Rsum (l ++ k) = Rsum l + Rsum k.
Proof.
  unfold Rsum. induction l as [|x l IH]; simpl; [lra|]. rewrite IH. lra.
Qed.

Lemma Rsum_Permutation (l k : list R) : Permutation l k -> Rsum l = Rsum k.
Proof.
  unfold Rsum. induction 1; simpl; lra.
Qed.

Lemma Rsum_fmap_snoc (f : nat -> R) (pre : list nat) (x : nat) :
  Rsum (f <$> pre ++ [x]) = Rsum (f <$> pre) + f x.
Proof.
  rewrite fmap_app, Rsum_app. unfold Rsum. simpl. lra.
Qed.

(** A sum over the sort permutation is the sum over the particles. *)
Lemma Rsum_argsort (f : nat -> R) (r : list R) (idx : list nat) :
  is_argsort r idx -> Rsum (f <$> idx) = Rsum (f <$> seq 0 (length r)).
Proof.
  intros [Hp _]. apply Rsum_Permutation, fmap_Permutation. exact Hp.
Qed.


(** The running sums of the first pass at the particles. *)
Lemma psi_pass_sums (r q : list R) (idx : list nat) (s0 : psi_pass) :
  let st := fold_left (psi_pass_body r q) idx s0 in
  pp_sum_1 st = pp_sum_1 s0 + Rsum ((fun i => q !!! i) <$> idx) /\
  pp_sum_2 st
  = pp_sum_2 s0 + Rsum ((fun i => q !!! i * ln (r !!! i)) <$> idx).
Proof.
  simpl. revert s0. induction idx as [|i idx IH]; intros s0.
  - unfold Rsum. simpl. lra.
  - cbn [fold_left]. destruct (IH (psi_pass_body r q s0 i)) as [-> ->].
    rewrite !fmap_cons, !Rsum_cons. unfold psi_pass_body.
    cbn [pp_sum_1 pp_sum_2]. lra.
Qed.

(** What the calibration offset at the particles is: the raw formula with
    the total sums, at the radius of the last array entry. *)
Lemma psi_offset_at_particles_eq (r q : list R) :
  is_argsort r (argsort r) ->
  psi_offset_at_particles r q
  = total_charge r q * ln (last_elem r) - total_charge_log r q
    - 0.25 * last_elem r ^ 2.
Proof.
  intros Hs. unfold psi_offset_at_particles, psi_pass_run.
  destruct (psi_pass_sums r q (argsort r)
              (PsiPass (np_zeros (length r)) (np_zeros (length r)) 0 0))
    as [-> ->]. simpl.
  rewrite (Rsum_argsort (fun i => q !!! i) r) by exact Hs.
  rewrite (Rsum_argsort (fun i => q !!! i * ln (r !!! i)) r) by exact Hs.
  unfold total_charge, total_charge_log. lra.
Qed.

(** What the calibration offset of the probe evaluation is. *)
Lemma probe_pass_sums (r q : list R) (idx : list nat) (s0 : probe_pass) :
  let st := fold_left (probe_pass_body r q) idx s0 in
  pb_sum_1 st = pb_sum_1 s0 + Rsum ((fun i => q !!! i) <$> idx) /\
  pb_sum_2 st
  = pb_sum_2 s0 + Rsum ((fun i => q !!! i * ln (r !!! i)) <$> idx).
Proof.
  simpl. revert s0. induction idx as [|i idx IH]; intros s0.
  - unfold Rsum. simpl. lra.
  - cbn [fold_left]. destruct (IH (probe_pass_body r q s0 i)) as [-> ->].
    rewrite !fmap_cons, !Rsum_cons. unfold probe_pass_body.
    cbn [pb_sum_1 pb_sum_2]. lra.
Qed.

Lemma psi_offset_probe_eq (r q : list R) :
  is_argsort r (argsort r) ->
  psi_offset_probe r q
  = total_charge r q * ln (last_elem r) - total_charge_log r q
    - 0.25 * last_elem r ^ 2.
Proof.
  intros Hs. unfold psi_offset_probe, probe_pass_run.
  destruct (probe_pass_sums r q (argsort r)
              (ProbePass 0 0 (np_zeros (length r)) (np_zeros (length r))
                         (np_zeros (length r))))
    as [-> ->]. simpl.
  rewrite (Rsum_argsort (fun i => q !!! i) r) by exact Hs.
  rewrite (Rsum_argsort (fun i => q !!! i * ln (r !!! i)) r) by exact Hs.
  unfold total_charge, total_charge_log. lra.
Qed.


(** ** The linear scan of the probe evaluation *)








(** ** The magnetic field at the probe radii *)



(** ** The potential at the probe radii *)





(** ** Removal of the particles beyond the boundary *)

Lemma filter_fmap_S (P : nat -> Prop) `{!forall i, Decision (P i)}
      (l : list nat) :
  filter P (S <$> l) = S <$> filter (fun i => P (S i)) l.
Proof.
  induction l as [|i l IH]; [reflexivity|].
  rewrite fmap_cons, !filter_cons, IH.
  destruct (decide (P (S i))); reflexivity.
Qed.

Lemma np_where_le_cons (x : R) (r : list R) (b : R) :
  np_where_le (x :: r) b
  = (if decide (x <= b) then [0%nat] else []) ++ (S <$> np_where_le r b).
Proof.
  unfold np_where_le. cbn [length seq]. rewrite filter_cons.
  rewrite <- fmap_S_seq, filter_fmap_S.
  destruct (decide ((x :: r) !!! 0%nat <= b)) as [H|H];
    destruct (decide (x <= b)) as [H'|H']; try reflexivity;
    exfalso; apply H' || apply H; exact H || exact H'.
Qed.

Lemma take_idx_cons_S (y : R) (a : list R) (idx : list nat) :
  take_idx (y :: a) (S <$> idx) = take_idx a idx.
Proof.
  unfold take_idx. rewrite <- list_fmap_compose. reflexivity.
Qed.

Lemma take_idx_app (a : list R) (l k : list nat) :
  take_idx a (l ++ k) = take_idx a l ++ take_idx a k.
Proof. unfold take_idx. apply fmap_app. Qed.

(** Indexing by [np.where(r <= b)] compacts: it keeps, in order, the entries
    of [a] that stand where [r] is within the bound. *)
Lemma take_idx_where (r a : list R) (b : R) :
  length a = length r ->
  take_idx a (np_where_le r b) = (filter (fun e => e.1 <= b) (zip r a)).*2.
Proof.
  revert a. induction r as [|x r IH]; intros [|y a] Hlen; try discriminate.
  - reflexivity.
  - rewrite np_where_le_cons. cbn [zip_with]. rewrite filter_cons. cbn [fst].
    rewrite take_idx_app, take_idx_cons_S, IH by (simpl in Hlen; lia).
    destruct (decide (x <= b)); reflexivity.
Qed.

Lemma take_idx_where_self (r : list R) (b : R) :
  take_idx r (np_where_le r b) = filter (fun x => x <= b) r.
Proof.
  induction r as [|x r IH]; [reflexivity|].
  rewrite np_where_le_cons, filter_cons.
  rewrite take_idx_app, take_idx_cons_S, IH.
  destruct (decide (x <= b)); reflexivity.
Qed.

Lemma length_take_idx (a : list R) (idx : list nat) :
  length (take_idx a idx) = length idx.
Proof. unfold take_idx. apply length_fmap. Qed.

Lemma length_np_where_le (r : list R) (b : R) :
  (length (np_where_le r b) <= length r)%nat.
Proof.
  unfold np_where_le.
  etransitivity; [apply length_filter|]. rewrite length_seq. lia.
Qed.

(** ** The motion integrator keeps the number of particles *)

Lemma update_particles_rk4_length (r pr Ar Br Cr Dr Apr Bpr Cpr Dpr : list R) :
  length pr = length r ->
  length (update_particles_rk4 r pr Ar Br Cr Dr Apr Bpr Cpr Dpr).1 = length r /\
  length (update_particles_rk4 r pr Ar Br Cr Dr Apr Bpr Cpr Dpr).2 = length r.
Proof.
  intros Hlen. unfold update_particles_rk4.
  destruct (rk4_push_lookup Ar Br Cr Dr Apr Bpr Cpr Dpr (1 / 6) r pr Hlen)
    as (Hl1 & Hl2 & _).
  destruct (fold_left _ _ _) as [r1 pr1]. simpl in Hl1, Hl2.
  destruct (reflect_negative_length r1 pr1) as [-> ->]. auto.
Qed.

Lemma evolve_plasma_length (r pr q : list R) (xi dxi s_d : R)
      (laser : option laser_params) :
  length pr = length r ->
  length (evolve_plasma r pr q xi dxi laser s_d).1 = length r /\
  length (evolve_plasma r pr q xi dxi laser s_d).2 = length r.
Proof.
  intros Hlen. unfold evolve_plasma.
  destruct (motion_derivatives dxi xi r pr q laser s_d) as [Ar Apr].
  destruct (motion_derivatives dxi (xi - dxi / 2) _ _ q laser s_d) as [Br Bpr].
  destruct (motion_derivatives dxi (xi - dxi / 2) _ _ q laser s_d) as [Cr Cpr].
  destruct (motion_derivatives dxi (xi - dxi) _ _ q laser s_d) as [Dr Dpr].
  apply update_particles_rk4_length. exact Hlen.
Qed.

(** ** The xi-stepping driver *)

(** One iteration of the main loop, by cases on the column left by the
    removal. *)
Lemma xi_step_cases (r_max xi_max dxi s_d : R) (n_xi : nat) (r_arr : list R)
      (laser : option laser_params) (p : plasma) (m : meshes) (step : nat) :
  let xi := xi_max - dxi * INR step in
  let ev := evolve_plasma (pl_r p) (pl_pr p) (pl_q p) xi dxi laser s_d in
  let p' := remove_outside r_max ev.1 ev.2 (pl_gamma p) (pl_q p) in
  let res := xi_step r_max xi_max dxi s_d n_xi r_arr laser p m step in
  res.1 = p' /\
  (pl_r p' = [] -> res.2 = None) /\
  (pl_r p' <> [] ->
   exists psi_r dr_psi_r dxi_psi_r b_theta_bar_r b_theta_0_r,
     res.2 = Some {|
       psi_mesh := set_col (psi_mesh m) (n_xi - 1 - step) psi_r;
       dr_psi_mesh := set_col (dr_psi_mesh m) (n_xi - 1 - step) dr_psi_r;
       dxi_psi_mesh := set_col (dxi_psi_mesh m) (n_xi - 1 - step) dxi_psi_r;
       b_theta_bar_mesh :=
         set_col (b_theta_bar_mesh m) (n_xi - 1 - step) b_theta_bar_r;
       b_theta_0_mesh :=
         set_col (b_theta_0_mesh m) (n_xi - 1 - step) b_theta_0_r |}).
Proof.
  cbv zeta. unfold xi_step.
  destruct (evolve_plasma _ _ _ _ _ _ _) as [r1 pr1]. cbn [fst snd].
  set (p' := remove_outside r_max r1 pr1 (pl_gamma p) (pl_q p)).
  destruct (decide (length (pl_r p') = 0%nat)) as [Hz|Hnz].
  - cbn [fst snd]. split; [reflexivity|]. split; [intros _; reflexivity|].
    intros Hne. exfalso. apply Hne, length_zero_iff_nil. exact Hz.
  - destruct (calculate_fields _ _ _ _ _ _ _)
      as [[[[psi_r dr_psi_r] dxi_psi_r] b_theta_bar_r] b_theta_0_r].
    cbn [fst snd]. split; [reflexivity|]. split.
    + intros E. exfalso. apply Hnz. rewrite E. reflexivity.
    + intros _. eauto 10.
Qed.

Lemma remove_outside_lengths (r_max : R) (r pr gamma q : list R) :
  let p' := remove_outside r_max r pr gamma q in
  (length (pl_r p') <= length r)%nat /\
  length (pl_pr p') = length (pl_r p') /\
  length (pl_q p') = length (pl_r p').
Proof.
  simpl. unfold remove_outside. cbn [pl_r pl_pr pl_q].
  rewrite !length_take_idx. split; [apply length_np_where_le | auto].
Qed.

(** The number of particles never grows along the main loop. *)
Lemma xi_loop_length (r_max xi_max dxi s_d : R) (n_xi : nat) (r_arr : list R)
      (laser : option laser_params) (steps : list nat) (p : plasma)
      (m : meshes) :
  length (pl_pr p) = length (pl_r p) ->
  (length (pl_r (xi_loop r_max xi_max dxi s_d n_xi r_arr laser steps p m).1.1)
   <= length (pl_r p))%nat.
Proof.
  revert p m. induction steps as [|step steps IH]; intros p m Hlen.
  - simpl. lia.
  - cbn [xi_loop].
    destruct (xi_step_cases r_max xi_max dxi s_d n_xi r_arr laser p m step)
      as (Hp & _ & _).
    destruct (evolve_plasma_length (pl_r p) (pl_pr p) (pl_q p)
                (xi_max - dxi * INR step) dxi s_d laser Hlen) as [Le _].
    destruct (remove_outside_lengths r_max
                (evolve_plasma (pl_r p) (pl_pr p) (pl_q p)
                               (xi_max - dxi * INR step) dxi laser s_d).1
                (evolve_plasma (pl_r p) (pl_pr p) (pl_q p)
                               (xi_max - dxi * INR step) dxi laser s_d).2
                (pl_gamma p) (pl_q p)) as (Lr & Lpr & _).
    rewrite <- Hp in Lr, Lpr.
    destruct (xi_step r_max xi_max dxi s_d n_xi r_arr laser p m step)
      as [p1 [m1|]]; cbn [fst snd] in *.
    + specialize (IH p1 m1 Lpr). lia.
    + lia.
Qed.

(** C6. At every xi-step, after the integrator returns, exactly the
    particles with r > r_max + 0.1 are removed: the surviving r, pr, q arrays
    are the compacted subsequences of the entries with r <= r_max + 0.1, in
    their relative order; the removal is never undone in later steps (the
    column never grows again); and if the surviving set is empty the loop
    terminates at once, without computing or storing fields for that step. *)
Theorem C6_particle_removal (r_max xi_max dxi s_d : R) (n_xi : nat)
        (r_arr : list R) (laser : option laser_params) (p : plasma)
        (m : meshes) (step : nat) :
  length (pl_pr p) = length (pl_r p) -> length (pl_q p) = length (pl_r p) ->
  let bound := r_max + 0.1 in
  let ev := evolve_plasma (pl_r p) (pl_pr p) (pl_q p)
                          (xi_max - dxi * INR step) dxi laser s_d in
  let res := xi_step r_max xi_max dxi s_d n_xi r_arr laser p m step in
  let p' := res.1 in
  (* compaction, in order, of the evolved arrays *)
  pl_r p' = filter (fun x => x <= bound) ev.1 /\
  pl_pr p' = (filter (fun e => e.1 <= bound) (zip ev.1 ev.2)).*2 /\
  pl_q p' = (filter (fun e => e.1 <= bound) (zip ev.1 (pl_q p))).*2 /\
  Forall (fun x => x <= bound) (pl_r p') /\
  length (pl_pr p') = length (pl_r p') /\
  length (pl_q p') = length (pl_r p') /\
  (* the column does not grow, now or in the later steps *)
  (length (pl_r p') <= length (pl_r p))%nat /\
  (forall steps m',
     (length (pl_r (xi_loop r_max xi_max dxi s_d n_xi r_arr laser
                            steps p' m').1.1)
      <= length (pl_r p'))%nat) /\
  (* an empty column leaves the loop, the meshes untouched *)
  (pl_r p' = [] <-> res.2 = None) /\
  (pl_r p' = [] ->
   forall steps,
     xi_loop r_max xi_max dxi s_d n_xi r_arr laser (step :: steps) p m
     = (p', m, Some step)).
Proof.
  intros Hpr Hq bound ev res p'.
  destruct (xi_step_cases r_max xi_max dxi s_d n_xi r_arr laser p m step)
    as (Hp & Hnone & Hsome).
  fold ev in Hp, Hnone, Hsome. fold res in Hp, Hnone, Hsome.
  destruct (evolve_plasma_length (pl_r p) (pl_pr p) (pl_q p)
              (xi_max - dxi * INR step) dxi s_d laser Hpr) as [Le1 Le2].
  fold ev in Le1, Le2.
  destruct (remove_outside_lengths r_max ev.1 ev.2 (pl_gamma p) (pl_q p))
    as (Lr & Lpr & Lq).
  rewrite <- Hp in Hnone, Hsome, Lr, Lpr, Lq. fold p' in Hnone, Hsome, Lr, Lpr, Lq.
  assert (Er : pl_r p' = filter (fun x => x <= bound) ev.1).
  { unfold p'. rewrite Hp. unfold remove_outside. cbn [pl_r].
    apply take_idx_where_self. }
  split; [exact Er|].
  split.
  { unfold p'. rewrite Hp. unfold remove_outside. cbn [pl_pr].
    apply take_idx_where. lia. }
  split.
  { unfold p'. rewrite Hp. unfold remove_outside. cbn [pl_q].
    apply take_idx_where. lia. }
  split.
  { rewrite Er. apply Forall_forall. intros x Hx.
    apply list_elem_of_filter in Hx as [Hx _]. exact Hx. }
  split; [exact Lpr|]. split; [exact Lq|]. split; [lia|].
  split.
  { intros steps m'. apply xi_loop_length. exact Lpr. }
  split.
  { split; [exact Hnone|].
    intros E. destruct (pl_r p') eqn:Ep; [reflexivity|].
    destruct Hsome as (? & ? & ? & ? & ? & Hs); [discriminate|].
    rewrite E in Hs. discriminate. }
  intros Hempty steps. cbn [xi_loop]. fold res.
  specialize (Hnone Hempty). unfold p'.
  destruct res as [p1 [m1|]]; cbn [fst snd] in *; [discriminate | reflexivity].
Qed.

(** ** Mesh slices left unfilled *)










End Solver.

(** * A concrete sort, and the properties at concrete columns *)

(** ** [stable_argsort] is an argsort *)

Lemma insert_idx_Permutation (r : list R) (i : nat) (idx : list nat) :
  Permutation (insert_idx r i idx) (i :: idx).
Proof.
  induction idx as [|j idx IH]; simpl; [reflexivity|].
  destruct (decide (r !!! i < r !!! j)); [reflexivity|].
  rewrite IH. apply perm_swap.
Qed.

Lemma insert_idx_fold_Permutation (r : list R) (l acc : list nat) :
  Permutation (fold_left (fun idx i => insert_idx r i idx) l acc) (l ++ acc).
Proof.
  revert acc. induction l as [|i l IH]; intros acc; simpl; [reflexivity|].
  rewrite IH, insert_idx_Permutation. symmetry. apply Permutation_middle.
Qed.

Lemma insert_idx_sorted (r : list R) (i : nat) (idx : list nat) :
  StronglySorted (key_le r) idx ->
  StronglySorted (key_le r) (insert_idx r i idx).
Proof.
  induction 1 as [|j idx Hs IH Hj]; simpl.
  - repeat constructor.
  - destruct (decide (r !!! i < r !!! j)) as [Hlt|Hge].
    + constructor; [constructor; assumption|].
      constructor; [unfold key_le; lra|].
      eapply Forall_impl; [exact Hj|].
      intros k Hk. unfold key_le in *. lra.
    + constructor; [exact IH|].
      rewrite (insert_idx_Permutation r i idx).
      constructor; [unfold key_le; lra | exact Hj].
Qed.

Lemma insert_idx_fold_sorted (r : list R) (l acc : list nat) :
  StronglySorted (key_le r) acc ->
  StronglySorted (key_le r) (fold_left (fun idx i => insert_idx r i idx) l acc).
Proof.
  revert acc. induction l as [|i l IH]; intros acc Hs; simpl; [exact Hs|].
  apply IH, insert_idx_sorted, Hs.
Qed.

Lemma StronglySorted_key_lookup (r : list R) (idx : list nat) (a b : nat) :
  StronglySorted (key_le r) idx ->
  (a <= b)%nat -> (b < length idx)%nat ->
  r !!! (idx !!! a) <= r !!! (idx !!! b).
Proof.
  intros Hs. revert a b.
  induction Hs as [|j idx Hs IH Hj]; intros a b Hab Hb; simpl in Hb; [lia|].
  destruct a as [|a], b as [|b]; simpl; try lia.
  - lra.
  - rewrite Forall_forall in Hj. apply Hj.
    apply list_elem_of_lookup_total_2. lia.
  - apply IH; lia.
Qed.

Lemma stable_argsort_is_argsort (r : list R) :
  is_argsort r (stable_argsort r).
Proof.
  unfold is_argsort, stable_argsort. split.
  - rewrite insert_idx_fold_Permutation, app_nil_r. reflexivity.
  - intros a b. apply StronglySorted_key_lookup.
    apply insert_idx_fold_sorted. constructor.
Qed.

(** ** The properties at concrete columns *)

Lemma C10_witness :
  let p := push_momentum 1 1 1 [1; 2] [3; 4] [5; 6]
                         [0; 1] [0; 1] [0; 1] [0; 1] [0; 1] [0; 1] 1 in
  mom_px p !!! 0%nat = 1 /\ mom_py p !!! 0%nat = 3 /\ mom_pz p !!! 0%nat = 5.
Proof.
  apply (C10_push_momentum_zero_field 1 1 1 1 [1; 2] [3; 4] [5; 6]
           [0; 1] [0; 1] [0; 1] [0; 1] [0; 1] [0; 1] 0%nat);
    try reflexivity.
  simpl. lia.
Defined.



Lemma C6_witness :
  let p := Plasma [1; 2] [0; 0] [1; 1] [1; 2] in
  let m := Meshes (np_zeros2 1 1) (np_zeros2 1 1) (np_zeros2 1 1)
                  (np_zeros2 1 1) (np_zeros2 1 1) in
  let res := xi_step stable_argsort 1 no_beam 2 1 (1 / 10) 1 1 [1] None
                     p m 0 in
  Forall (fun x => x <= 2 + 0.1) (pl_r res.1) /\
  (length (pl_r res.1) <= 2)%nat.
Proof.
  pose proof (C6_particle_removal stable_argsort 1 no_beam 2 1 (1 / 10) 1 1
                [1] None (Plasma [1; 2] [0; 0] [1; 1] [1; 2])
                (Meshes (np_zeros2 1 1) (np_zeros2 1 1) (np_zeros2 1 1)
                        (np_zeros2 1 1) (np_zeros2 1 1)) 0%nat
                eq_refl eq_refl) as H.
  cbv zeta in H.
  destruct H as (_ & _ & _ & HF & _ & _ & HL & _).
  split; [exact HF | exact HL].
Defined.

Lemma C4_witness :
  let '(a_i, _, _, idx) :=
    calculate_ai_bi stable_argsort [1; 2] [0; 0] [1; 1] [1; 1] [0; 0]
                    [0; 0] [0; 0] [0; 0] [0; 0] in
  a_i !!! (idx !!! (length idx - 1)%nat) = 0.
Proof.
  pose proof (C4_boundary_closure stable_argsort [1; 2] [0; 0] [1; 1] [1; 1]
                [0; 0] [0; 0] [0; 0] [0; 0] [0; 0]
                ltac:(discriminate) (stable_argsort_is_argsort _)
                ltac:(intros [|[|i]] Hi; simpl in *; try lia; lra)) as H.
  cbv zeta in H.
  assert (HK : sw_K_im1 (forward_sweep stable_argsort [1; 2] [0; 0] [1; 1]
                           [1; 1] [0; 0] [0; 0] [0; 0] [0; 0] [0; 0]) <> 0).
  { unfold forward_sweep, stable_argsort. simpl.
    destruct (decide (2 < 1)) as [Hlt|_]; [lra|]. simpl. lra. }
  specialize (H HK).
  destruct (calculate_ai_bi _ _ _ _ _ _ _ _ _ _) as [[[a_i b_i] a_0] idx].
  destruct H as (_ & _ & _ & _ & _ & H). exact H.
Defined.





(** C2. The calibration offset is the raw formula at the last array entry,
    not at the particle of largest radius: for r = [2, 1], q = [1, 1] both
    psi computations subtract - ln 2 - 1/4, the value at r = 1, while the
    raw formula at the outermost particle, r_out = 2, is ln 2 - 1. *)
Theorem C2_offset_at_last_array_entry :
  psi_offset_at_particles stable_argsort [2; 1] [1; 1] = - ln 2 - / 4 /\
  psi_offset_probe stable_argsort [2; 1] [1; 1] = - ln 2 - / 4 /\
  total_charge [2; 1] [1; 1] * ln 2 - total_charge_log [2; 1] [1; 1]
  - 2 ^ 2 / 4 = ln 2 - 1 /\
  psi_offset_at_particles stable_argsort [2; 1] [1; 1]
  <> total_charge [2; 1] [1; 1] * ln 2 - total_charge_log [2; 1] [1; 1]
     - 2 ^ 2 / 4 /\
  psi_offset_probe stable_argsort [2; 1] [1; 1]
  <> total_charge [2; 1] [1; 1] * ln 2 - total_charge_log [2; 1] [1; 1]
     - 2 ^ 2 / 4.
Proof.
  assert (Hq : total_charge [2; 1] [1; 1] = 2)
    by (unfold total_charge, Rsum; simpl; lra).
  assert (Hql : total_charge_log [2; 1] [1; 1] = ln 2).
  { unfold total_charge_log, Rsum. simpl. rewrite ln_1. lra. }
  assert (H1 : psi_offset_at_particles stable_argsort [2; 1] [1; 1]
               = - ln 2 - / 4).
  { rewrite psi_offset_at_particles_eq by apply stable_argsort_is_argsort.
    rewrite Hq, Hql. unfold last_elem. simpl. rewrite ln_1. lra. }
  assert (H2 : psi_offset_probe stable_argsort [2; 1] [1; 1] = - ln 2 - / 4).
  { rewrite psi_offset_probe_eq by apply stable_argsort_is_argsort.
    rewrite Hq, Hql. unfold last_elem. simpl. rewrite ln_1. lra. }
  pose proof ln_lt_2 as Hln.
  rewrite H1, H2, Hq, Hql. repeat split; lra.
Qed.

(** ** A column of one particle *)

Lemma dec_half : 0.5 = 1 / 2.
Proof. lra. Qed.

Lemma dec_neg_half : -0.5 = - (1 / 2).
Proof. lra. Qed.

Lemma dec_quarter : 0.25 = 1 / 4.
Proof. lra. Qed.

(** The potential of a single particle at its own position is calibrated
    to zero. *)
Lemma single_psi (r0 pr0 q0 : R) :
  r0 <> 0 ->
  calculate_psi_and_derivatives_at_particles stable_argsort [r0] [pr0] [q0]
  = ([0], [q0 / (2 * r0) - r0 / 2], [q0 * pr0 / (2 * r0)]).
Proof.
  intros Hr.
  unfold calculate_psi_and_derivatives_at_particles, psi_offset_at_particles,
    psi_pass_run, stable_argsort, last_elem. simpl.
  match goal with
  | |- ([?p], _, _) = _ => replace p with 0 by ring
  end.
  rewrite ?dec_half, ?dec_neg_half, ?dec_quarter.
  f_equal; [f_equal|]; f_equal; field; exact Hr.
Qed.




(** ** A run that fills one slice and then leaves the loop *)


(** On a column of one particle the field solver is defined as soon as the
    radius is positive and [K_1 = 1 + q / 2] is not zero. *)
Lemma single_field_solver_defined (r0 pr0 q0 b0 n0 : R)
      (gamma_of : list R -> list R) :
  0 < r0 -> 1 + q0 / 2 <> 0 ->
  field_solver_defined stable_argsort [r0] [pr0] [q0] [b0] [n0] gamma_of.
Proof.
  intros Hr HK. unfold field_solver_defined.
  split; [discriminate|]. split; [reflexivity|]. split; [reflexivity|].
  split; [reflexivity|]. split.
  { intros [|i] Hi; simpl in *; [exact Hr | lia]. }
  rewrite single_psi by lra. split.
  { intros [|i] Hi; simpl in *; [lra | lia]. }
  unfold forward_sweep, stable_argsort. simpl.
  rewrite ?dec_half.
  match goal with
  | |- ?k <> 0 => replace k with (1 + q0 / 2) by (field; lra)
  end.
  exact HK.
Qed.

Lemma single_motion_defined (beam : list R -> R -> list R)
      (ct_c xi r0 pr0 q0 s_d b0 : R) :
  0 < r0 -> 1 + q0 / 2 <> 0 -> beam [r0] xi = [b0] ->
  motion_defined stable_argsort ct_c beam xi [r0] [pr0] [q0] None s_d.
Proof.
  intros Hr HK Hb. unfold motion_defined.
  split; [exact I|]. split; [reflexivity|].
  unfold reflect_negative, np_where_neg.
  cbn [length seq]. rewrite filter_cons, filter_nil.
  destruct (decide ([r0] !!! 0%nat < 0)) as [Hn|_]; [simpl in Hn; lra|].
  cbn [length]. destruct (decide (0 < 0)%nat) as [?|_]; [lia|].
  cbv zeta. rewrite Hb. apply single_field_solver_defined; assumption.
Qed.

Lemma single_fields_defined (beam : list R -> R -> list R)
      (ct_c xi r0 pr0 q0 s_d b0 : R) :
  0 < r0 -> 1 + q0 / 2 <> 0 -> beam [r0] xi = [b0] ->
  fields_defined stable_argsort ct_c beam xi [r0] [pr0] [q0] None s_d.
Proof.
  intros Hr HK Hb. unfold fields_defined.
  split; [exact I|]. split.
  - unfold probe_solver_defined, psi_offset_probe, probe_pass_run, last_elem.
    unfold stable_argsort. simpl.
    intros [|i] Hi; [|lia]. simpl. lra.
  - cbv zeta. rewrite Hb.
    apply single_field_solver_defined; assumption.
Qed.









(** ** A run that leaves the loop on a grid too small for the return path *)





(** * Further properties *)

(** ** The Boris pusher, particle by particle *)

Section BorisProperties.

Variables ct_e ct_m_e ct_c : R.

Lemma push_momentum_body_length (k : R) (ex ey ez bx by_ bz : list R)
      (s : momenta) (n : nat) :
  let s' := push_momentum_body ct_c k ex ey ez bx by_ bz s n in
  length (mom_px s') = length (mom_px s) /\
  length (mom_py s') = length (mom_py s) /\
  length (mom_pz s') = length (mom_pz s).
Proof.
  simpl. unfold push_momentum_body. cbn [mom_px mom_py mom_pz].
  rewrite !length_insert. auto.
Qed.

Lemma push_momentum_body_frame (k : R) (ex ey ez bx by_ bz : list R)
      (s : momenta) (n i : nat) :
  n <> i ->
  let s' := push_momentum_body ct_c k ex ey ez bx by_ bz s n in
  mom_px s' !!! i = mom_px s !!! i /\ mom_py s' !!! i = mom_py s !!! i /\
  mom_pz s' !!! i = mom_pz s !!! i.
Proof.
  intros Hne. simpl. unfold push_momentum_body. cbn [mom_px mom_py mom_pz].
  rewrite !list_lookup_total_insert_ne by exact Hne. auto.
Qed.

Lemma push_momentum_body_at (k : R) (ex ey ez bx by_ bz : list R)
      (s s0 : momenta) (i : nat) :
  (i < length (mom_px s))%nat -> (i < length (mom_py s))%nat ->
  (i < length (mom_pz s))%nat ->
  (i < length (mom_px s0))%nat -> (i < length (mom_py s0))%nat ->
  (i < length (mom_pz s0))%nat ->
  mom_px s !!! i = mom_px s0 !!! i -> mom_py s !!! i = mom_py s0 !!! i ->
  mom_pz s !!! i = mom_pz s0 !!! i ->
  let s' := push_momentum_body ct_c k ex ey ez bx by_ bz s i in
  let s0' := push_momentum_body ct_c k ex ey ez bx by_ bz s0 i in
  mom_px s' !!! i = mom_px s0' !!! i /\ mom_py s' !!! i = mom_py s0' !!! i /\
  mom_pz s' !!! i = mom_pz s0' !!! i.
Proof.
  intros L1 L2 L3 L4 L5 L6 Ex Ey Ez. simpl. unfold push_momentum_body.
  cbn [mom_px mom_py mom_pz].
  rewrite !list_lookup_total_insert_eq by assumption.
  rewrite Ex, Ey, Ez. auto.
Qed.

(** [push_momentum] gives particle [i] what the loop body computes from the
    momentum and fields of that particle alone. *)
Lemma push_momentum_lookup (px py pz ex ey ez bx by_ bz : list R) (dt : R)
      (i : nat) :
  (i < length px)%nat -> (i < length py)%nat -> (i < length pz)%nat ->
  let k := - ct_e * dt / (ct_m_e * 2 * ct_c) in
  let p := push_momentum ct_e ct_m_e ct_c px py pz ex ey ez bx by_ bz dt in
  let p1 := push_momentum_body ct_c k ex ey ez bx by_ bz
                               (Momenta px py pz) i in
  mom_px p !!! i = mom_px p1 !!! i /\
  mom_py p !!! i = mom_py p1 !!! i /\
  mom_pz p !!! i = mom_pz p1 !!! i.
Proof.
  intros Hx Hy Hz k p p1. unfold p, push_momentum. fold k.
  pose (Inv := fun (n : nat) (s : momenta) =>
    length (mom_px s) = length px /\ length (mom_py s) = length py /\
    length (mom_pz s) = length pz /\
    ((n <= i)%nat ->
     mom_px s !!! i = px !!! i /\ mom_py s !!! i = py !!! i /\
     mom_pz s !!! i = pz !!! i) /\
    ((i < n)%nat ->
     mom_px s !!! i = mom_px p1 !!! i /\ mom_py s !!! i = mom_py p1 !!! i /\
     mom_pz s !!! i = mom_pz p1 !!! i)).
  assert (H : Inv (length px)
                  (fold_left (push_momentum_body ct_c k ex ey ez bx by_ bz)
                             (seq 0 (length px)) (Momenta px py pz))).
  { apply (fold_left_range_inv _ Inv); unfold Inv.
    - simpl. repeat split; auto; lia.
    - intros n s Hn (Lx & Ly & Lz & Hbefore & Hafter).
      destruct (push_momentum_body_length k ex ey ez bx by_ bz s n)
        as (Lx' & Ly' & Lz').
      rewrite Lx', Ly', Lz'.
      split; [exact Lx|]. split; [exact Ly|]. split; [exact Lz|].
      destruct (decide (n = i)) as [->|Hne].
      + split; [lia|]. intros _.
        destruct (Hbefore (Nat.le_refl i)) as (Ex & Ey & Ez).
        apply push_momentum_body_at; simpl; try lia; assumption.
      + destruct (push_momentum_body_frame k ex ey ez bx by_ bz s n i Hne)
          as (-> & -> & ->).
        split; intros Hle; [apply Hbefore | apply Hafter]; lia. }
  destruct H as (_ & _ & _ & _ & H). apply H. exact Hx.
Qed.

(** [apply_half_position_push], particle by particle. *)
Lemma apply_half_position_push_lookup (x y xi px py pz : list R) (dt : R)
      (i : nat) :
  (i < length x)%nat -> (i < length y)%nat -> (i < length xi)%nat ->
  let c_over_gamma_i :=
    ct_c / sqrt (1 + (px !!! i ^ 2 + py !!! i ^ 2 + pz !!! i ^ 2)) in
  let s := apply_half_position_push ct_c x y xi px py pz dt in
  pos_x s !!! i = x !!! i + 0.5 * px !!! i * dt * c_over_gamma_i /\
  pos_y s !!! i = y !!! i + 0.5 * py !!! i * dt * c_over_gamma_i /\
  pos_xi s !!! i = xi !!! i + 0.5 * (pz !!! i * c_over_gamma_i - ct_c) * dt.
Proof.
  intros Hx Hy Hz C s. unfold s, apply_half_position_push.
  pose (Inv := fun (n : nat) (s : positions) =>
    length (pos_x s) = length x /\ length (pos_y s) = length y /\
    length (pos_xi s) = length xi /\
    ((n <= i)%nat ->
     pos_x s !!! i = x !!! i /\ pos_y s !!! i = y !!! i /\
     pos_xi s !!! i = xi !!! i) /\
    ((i < n)%nat ->
     pos_x s !!! i = x !!! i + 0.5 * px !!! i * dt * C /\
     pos_y s !!! i = y !!! i + 0.5 * py !!! i * dt * C /\
     pos_xi s !!! i = xi !!! i + 0.5 * (pz !!! i * C - ct_c) * dt)).
  assert (H : Inv (length x)
                  (fold_left (half_push_body ct_c px py pz dt)
                             (seq 0 (length x)) (Positions x y xi))).
  { apply (fold_left_range_inv _ Inv); unfold Inv.
    - simpl. repeat split; auto; lia.
    - intros n s0 Hn (Lx & Ly & Lz & Hbefore & Hafter).
      assert (Hlen : length (pos_x (half_push_body ct_c px py pz dt s0 n))
                     = length (pos_x s0) /\
                     length (pos_y (half_push_body ct_c px py pz dt s0 n))
                     = length (pos_y s0) /\
                     length (pos_xi (half_push_body ct_c px py pz dt s0 n))
                     = length (pos_xi s0)).
      { unfold half_push_body. cbn [pos_x pos_y pos_xi].
        rewrite !length_insert. auto. }
      destruct Hlen as (-> & -> & ->).
      split; [exact Lx|]. split; [exact Ly|]. split; [exact Lz|].
      destruct (decide (n = i)) as [->|Hne].
      + split; [lia|]. intros _.
        destruct (Hbefore (Nat.le_refl i)) as (Ex & Ey & Ez).
        unfold half_push_body. cbn [pos_x pos_y pos_xi].
        rewrite !list_lookup_total_insert_eq by lia.
        rewrite Ex, Ey, Ez. auto.
      + assert (Hfr : pos_x (half_push_body ct_c px py pz dt s0 n) !!! i
                      = pos_x s0 !!! i /\
                      pos_y (half_push_body ct_c px py pz dt s0 n) !!! i
                      = pos_y s0 !!! i /\
                      pos_xi (half_push_body ct_c px py pz dt s0 n) !!! i
                      = pos_xi s0 !!! i).
        { unfold half_push_body. cbn [pos_x pos_y pos_xi].
          rewrite !list_lookup_total_insert_ne by exact Hne. auto. }
        destruct Hfr as (-> & -> & ->).
        split; intros Hle; [apply Hbefore | apply Hafter]; lia. }
  destruct H as (_ & _ & _ & _ & H). apply H. exact Hx.
Qed.

Lemma apply_half_position_push_length (x y xi px py pz : list R) (dt : R) :
  let s := apply_half_position_push ct_c x y xi px py pz dt in
  length (pos_x s) = length x /\ length (pos_y s) = length y /\
  length (pos_xi s) = length xi.
Proof.
  simpl. unfold apply_half_position_push.
  apply (fold_left_range_inv _
           (fun _ s => length (pos_x s) = length x /\
                       length (pos_y s) = length y /\
                       length (pos_xi s) = length xi)).
  - simpl. auto.
  - intros n s _ (Lx & Ly & Lz). unfold half_push_body.
    cbn [pos_x pos_y pos_xi]. rewrite !length_insert. auto.
Qed.

Lemma push_momentum_length (px py pz ex ey ez bx by_ bz : list R) (dt : R) :
  let p := push_momentum ct_e ct_m_e ct_c px py pz ex ey ez bx by_ bz dt in
  length (mom_px p) = length px /\ length (mom_py p) = length py /\
  length (mom_pz p) = length pz.
Proof.
  simpl. unfold push_momentum.
  apply (fold_left_range_inv _
           (fun _ s => length (mom_px s) = length px /\
                       length (mom_py s) = length py /\
                       length (mom_pz s) = length pz)).
  - simpl. auto.
  - intros n s _ (Lx & Ly & Lz). unfold push_momentum_body.
    cbn [mom_px mom_py mom_pz]. rewrite !length_insert. auto.
Qed.

(** X1. Where the gathered electric field of a particle is zero,
    [push_momentum] only rotates its momentum: px^2 + py^2 + pz^2 is the
    same after the push, whatever the magnetic field. *)
Theorem X1_push_momentum_magnetic_rotation
        (px py pz ex ey ez bx by_ bz : list R) (dt : R) (i : nat) :
  (i < length px)%nat -> length py = length px -> length pz = length px ->
  ex !!! i = 0 -> ey !!! i = 0 -> ez !!! i = 0 ->
  let p := push_momentum ct_e ct_m_e ct_c px py pz ex ey ez bx by_ bz dt in
  mom_px p !!! i ^ 2 + mom_py p !!! i ^ 2 + mom_pz p !!! i ^ 2
  = px !!! i ^ 2 + py !!! i ^ 2 + pz !!! i ^ 2.
Proof.
  intros Hi Ly Lz Hex Hey Hez p.
  destruct (push_momentum_lookup px py pz ex ey ez bx by_ bz dt i
              Hi ltac:(lia) ltac:(lia)) as (Ex & Ey & Ez).
  fold p in Ex, Ey, Ez. rewrite Ex, Ey, Ez.
  unfold push_momentum_body. cbn [mom_px mom_py mom_pz].
  rewrite !list_lookup_total_insert_eq by lia.
  rewrite Hex, Hey, Hez.
  set (k := - ct_e * dt / (ct_m_e * 2 * ct_c)).
  rewrite !Rmult_0_r, !Rplus_0_r.
  set (C := ct_c / sqrt (1 + (px !!! i ^ 2 + py !!! i ^ 2 + pz !!! i ^ 2))).
  set (t_x := k * C * bx !!! i).
  set (t_y := k * C * by_ !!! i).
  set (t_z := k * C * bz !!! i).
  assert (Hs : 1 + t_x ^ 2 + t_y ^ 2 + t_z ^ 2 <> 0) by nra.
  field. exact Hs.
Qed.

(** X2. Where the gathered magnetic field of a particle is zero,
    [push_momentum] adds the electric impulse 2 k E to its momentum, with
    k = - e dt / (2 m_e c). *)
Theorem X2_push_momentum_electric_kick
        (px py pz ex ey ez bx by_ bz : list R) (dt : R) (i : nat) :
  (i < length px)%nat -> length py = length px -> length pz = length px ->
  bx !!! i = 0 -> by_ !!! i = 0 -> bz !!! i = 0 ->
  let k := - ct_e * dt / (ct_m_e * 2 * ct_c) in
  let p := push_momentum ct_e ct_m_e ct_c px py pz ex ey ez bx by_ bz dt in
  mom_px p !!! i = px !!! i + 2 * k * ex !!! i /\
  mom_py p !!! i = py !!! i + 2 * k * ey !!! i /\
  mom_pz p !!! i = pz !!! i + 2 * k * ez !!! i.
Proof.
  intros Hi Ly Lz Hbx Hby Hbz k p.
  destruct (push_momentum_lookup px py pz ex ey ez bx by_ bz dt i
              Hi ltac:(lia) ltac:(lia)) as (Ex & Ey & Ez).
  fold p in Ex, Ey, Ez. fold k in Ex, Ey, Ez. rewrite Ex, Ey, Ez.
  unfold push_momentum_body. cbn [mom_px mom_py mom_pz].
  rewrite !list_lookup_total_insert_eq by lia.
  rewrite Hbx, Hby, Hbz. repeat split; ring.
Qed.

(** The Lorentz factor bounds each momentum component. *)
Lemma momentum_over_gamma_bounds (a b c : R) :
  let g := sqrt (1 + (a ^ 2 + b ^ 2 + c ^ 2)) in
  0 < g /\ -1 <= a / g <= 1.
Proof.
  intros g.
  assert (Hsq : g * g = 1 + (a ^ 2 + b ^ 2 + c ^ 2))
    by (apply sqrt_sqrt; nra).
  assert (Hg0 : 0 <= g) by apply sqrt_pos.
  assert (Hg : 0 < g) by nra.
  split; [exact Hg|].
  assert (Ha : - g <= a <= g) by (split; nra).
  assert (Hw : 0 < / g) by (apply Rinv_0_lt_compat; exact Hg).
  assert (Hgw : g * / g = 1) by (apply Rinv_r; lra).
  assert (H1 : 0 <= (g - a) * / g) by (apply Rmult_le_pos; lra).
  assert (H2 : 0 <= (g + a) * / g) by (apply Rmult_le_pos; lra).
  unfold Rdiv. split; nra.
Qed.

(** X3. Half a position push moves no particle faster than light: for
    dt >= 0 and c >= 0 the displacements in x and in y are at most c dt / 2
    in magnitude, and xi, the position in the frame moving at c, never
    increases and falls by at most c dt. *)
Theorem X3_half_position_push_subluminal (x y xi px py pz : list R) (dt : R)
        (i : nat) :
  0 <= ct_c -> 0 <= dt ->
  (i < length x)%nat -> (i < length y)%nat -> (i < length xi)%nat ->
  let s := apply_half_position_push ct_c x y xi px py pz dt in
  Rabs (pos_x s !!! i - x !!! i) <= ct_c * dt / 2 /\
  Rabs (pos_y s !!! i - y !!! i) <= ct_c * dt / 2 /\
  xi !!! i - ct_c * dt <= pos_xi s !!! i <= xi !!! i.
Proof.
  intros Hc Hdt Hx Hy Hz s.
  destruct (apply_half_position_push_lookup x y xi px py pz dt i Hx Hy Hz)
    as (Ex & Ey & Ez).
  fold s in Ex, Ey, Ez. cbv zeta in Ex, Ey, Ez. rewrite Ex, Ey, Ez.
  set (g := sqrt (1 + (px !!! i ^ 2 + py !!! i ^ 2 + pz !!! i ^ 2))).
  destruct (momentum_over_gamma_bounds (px !!! i) (py !!! i) (pz !!! i))
    as [Hg Hvx]. fold g in Hg, Hvx.
  assert (Hvy : -1 <= py !!! i / g <= 1).
  { destruct (momentum_over_gamma_bounds (py !!! i) (px !!! i) (pz !!! i))
      as [_ H]. replace g with
        (sqrt (1 + (py !!! i ^ 2 + px !!! i ^ 2 + pz !!! i ^ 2)));
      [exact H | unfold g; f_equal; ring]. }
  assert (Hvz : -1 <= pz !!! i / g <= 1).
  { destruct (momentum_over_gamma_bounds (pz !!! i) (py !!! i) (px !!! i))
      as [_ H]. replace g with
        (sqrt (1 + (pz !!! i ^ 2 + py !!! i ^ 2 + px !!! i ^ 2)));
      [exact H | unfold g; f_equal; ring]. }
  assert (Hcd : 0 <= ct_c * dt) by nra.
  set (vx := px !!! i / g) in *. set (vy := py !!! i / g) in *.
  set (vz := pz !!! i / g) in *.
  replace (x !!! i + 0.5 * px !!! i * dt * (ct_c / g) - x !!! i)
    with (ct_c * dt / 2 * vx) by (unfold vx; rewrite dec_half; field; lra).
  replace (y !!! i + 0.5 * py !!! i * dt * (ct_c / g) - y !!! i)
    with (ct_c * dt / 2 * vy) by (unfold vy; rewrite dec_half; field; lra).
  replace (xi !!! i + 0.5 * (pz !!! i * (ct_c / g) - ct_c) * dt)
    with (xi !!! i + ct_c * dt / 2 * (vz - 1))
    by (unfold vz; rewrite dec_half; field; lra).
  repeat split; try (apply Rabs_le; split); nra.
Qed.

(** X4. A particle at which the gathered fields are all zero drifts freely
    through [apply_boris_pusher]: its momentum is unchanged and the two half
    pushes add up to one full step, x += px dt c / gamma,
    y += py dt c / gamma, xi += (pz c / gamma - c) dt. *)
Theorem X4_boris_pusher_free_drift
        (gather : list R -> list R -> list R -> field_arrays -> field_arrays)
        (x y xi px py pz : list R) (fa : field_arrays) (dt : R) (i : nat) :
  (i < length x)%nat -> length y = length x -> length xi = length x ->
  length px = length x -> length py = length x -> length pz = length x ->
  let s1 := apply_half_position_push ct_c x y xi px py pz dt in
  let f := gather (pos_x s1) (pos_y s1) (pos_xi s1) fa in
  fa_ex f !!! i = 0 -> fa_ey f !!! i = 0 -> fa_ez f !!! i = 0 ->
  fa_bx f !!! i = 0 -> fa_by f !!! i = 0 -> fa_bz f !!! i = 0 ->
  let out := apply_boris_pusher ct_e ct_m_e ct_c gather x y xi px py pz fa dt in
  let c_over_gamma :=
    ct_c / sqrt (1 + (px !!! i ^ 2 + py !!! i ^ 2 + pz !!! i ^ 2)) in
  mom_px out.2 !!! i = px !!! i /\ mom_py out.2 !!! i = py !!! i /\
  mom_pz out.2 !!! i = pz !!! i /\
  pos_x out.1 !!! i = x !!! i + px !!! i * dt * c_over_gamma /\
  pos_y out.1 !!! i = y !!! i + py !!! i * dt * c_over_gamma /\
  pos_xi out.1 !!! i = xi !!! i + (pz !!! i * c_over_gamma - ct_c) * dt.
Proof.
  intros Hi Ly Lxi Lpx Lpy Lpz s1 f Hex Hey Hez Hbx Hby Hbz out C.
  unfold out, apply_boris_pusher. fold s1. fold f. cbn [fst snd].
  set (p := push_momentum ct_e ct_m_e ct_c px py pz (fa_ex f) (fa_ey f)
                          (fa_ez f) (fa_bx f) (fa_by f) (fa_bz f) dt).
  destruct (push_momentum_lookup px py pz (fa_ex f) (fa_ey f) (fa_ez f)
              (fa_bx f) (fa_by f) (fa_bz f) dt i
              ltac:(lia) ltac:(lia) ltac:(lia)) as (Px & Py & Pz).
  fold p in Px, Py, Pz. cbv zeta in Px, Py, Pz.
  destruct (push_momentum_body_zero_field ct_c
              (- ct_e * dt / (ct_m_e * 2 * ct_c))
              (fa_ex f) (fa_ey f) (fa_ez f) (fa_bx f) (fa_by f) (fa_bz f)
              (Momenta px py pz) i i Hex Hey Hez Hbx Hby Hbz)
    as (Qx & Qy & Qz).
  cbn [mom_px mom_py mom_pz] in Qx, Qy, Qz.
  rewrite Qx in Px. rewrite Qy in Py. rewrite Qz in Pz.
  destruct (apply_half_position_push_lookup x y xi px py pz dt i
              Hi ltac:(lia) ltac:(lia)) as (E1x & E1y & E1z).
  fold s1 in E1x, E1y, E1z. cbv zeta in E1x, E1y, E1z. fold C in E1x, E1y, E1z.
  destruct (apply_half_position_push_length x y xi px py pz dt)
    as (L1x & L1y & L1z). fold s1 in L1x, L1y, L1z.
  destruct (apply_half_position_push_lookup (pos_x s1) (pos_y s1) (pos_xi s1)
              (mom_px p) (mom_py p) (mom_pz p) dt i
              ltac:(lia) ltac:(lia) ltac:(lia)) as (E2x & E2y & E2z).
  cbv zeta in E2x, E2y, E2z.
  rewrite Px, Py, Pz in E2x, E2y, E2z. fold C in E2x, E2y, E2z.
  rewrite E2x, E2y, E2z, E1x, E1y, E1z.
  repeat split; try assumption; rewrite dec_half; field.
Qed.

End BorisProperties.

(** ** The motion integrator *)

Section SolverProperties.

Variable argsort : list R -> list nat.
Variable ct_c : R.
Variable beam_source : list R -> R -> list R.

Lemma np_where_neg_nonneg (r : list R) :
  (forall i, (i < length r)%nat -> 0 <= r !!! i) -> np_where_neg r = [].
Proof.
  intros Hpos. destruct (np_where_neg r) as [|i l] eqn:E; [reflexivity|].
  assert (Hin : i ∈ np_where_neg r) by (rewrite E; left).
  apply elem_of_np_where_neg in Hin as [Hneg Hi].
  specialize (Hpos i Hi). lra.
Qed.

Lemma reflect_negative_nonneg (r pr : list R) (i : nat) :
  (i < length r)%nat -> 0 <= (reflect_negative r pr).1 !!! i.
Proof.
  intros Hi. rewrite (proj1 (reflect_negative_lookup r pr i Hi)).
  destruct (decide (r !!! i < 0)); lra.
Qed.

(** X5. The reflection returns only non-negative radii and is idempotent:
    applied to its own result it changes nothing, so the correction at the
    start of [motion_derivatives] leaves a column returned by
    [update_particles_rk4] as it is. *)
Theorem X5_reflect_negative_idempotent (r pr : list R) :
  let out := reflect_negative r pr in
  (forall i, (i < length out.1)%nat -> 0 <= out.1 !!! i) /\
  reflect_negative out.1 out.2 = out.
Proof.
  intros out.
  assert (Hpos : forall i, (i < length out.1)%nat -> 0 <= out.1 !!! i).
  { intros i Hi. unfold out in *.
    rewrite (proj1 (reflect_negative_length r pr)) in Hi.
    apply reflect_negative_nonneg. exact Hi. }
  split; [exact Hpos|].
  unfold reflect_negative at 1.
  rewrite (np_where_neg_nonneg out.1 Hpos). simpl.
  destruct out. reflexivity.
Qed.

Lemma np_zeros_lookup (n i : nat) : np_zeros n !!! i = 0.
Proof.
  unfold np_zeros. destruct (Nat.lt_ge_cases i n) as [Hi|Hi].
  - apply lookup_total_replicate_2. exact Hi.
  - apply lookup_total_beyond. rewrite length_replicate. exact Hi.
Qed.

Lemma insert_lookup_total_id (l : list R) (i : nat) : <[i := l !!! i]> l = l.
Proof.
  destruct (Nat.lt_ge_cases i (length l)) as [Hi|Hi].
  - apply list_insert_id. apply list_lookup_lookup_total_lt. exact Hi.
  - apply list_insert_ge. exact Hi.
Qed.

Lemma zip_with_zeros_r (f : R -> R -> R) (l : list R) :
  (forall x, f x 0 = x) -> zip_with f l (np_zeros (length l)) = l.
Proof.
  intros Hf. unfold np_zeros.
  induction l as [|x l IH]; simpl; [reflexivity|]. rewrite Hf, IH. reflexivity.
Qed.

(** With [dxi = 0] every derivative is zero. *)
Lemma calculate_derivatives_dxi_0 (r pr q b_theta_0 nabla_a a2 : list R) :
  calculate_derivatives argsort 0 r pr q b_theta_0 nabla_a a2
  = (np_zeros (length r), np_zeros (length r)).
Proof.
  unfold calculate_derivatives.
  destruct (calculate_psi_and_derivatives_at_particles argsort r pr q)
    as [[psi dr_psi] dxi_psi].
  apply (fold_left_range_inv _
           (fun _ (st : list R * list R) =>
              st = (np_zeros (length r), np_zeros (length r)))).
  - reflexivity.
  - intros k st _ ->. unfold derivatives_body.
    match goal with
    | |- (<[k := ?v1]> _, <[k := ?v2]> _) = _ =>
        replace v1 with 0 by (unfold Rdiv; ring);
        replace v2 with 0 by (unfold Rdiv; ring)
    end.
    unfold np_zeros. rewrite !insert_replicate. reflexivity.
Qed.

Lemma motion_derivatives_dxi_0 (xi : R) (r pr q : list R)
      (laser : option laser_params) (s_d : R) :
  motion_derivatives argsort ct_c beam_source 0 xi r pr q laser s_d
  = (np_zeros (length r), np_zeros (length r)).
Proof.
  unfold motion_derivatives.
  destruct (reflect_negative_length r pr) as [Hl _].
  destruct (reflect_negative r pr) as [r1 pr1]. simpl in Hl.
  destruct laser as [lp|]; rewrite calculate_derivatives_dxi_0, Hl;
    reflexivity.
Qed.

(** With [dxi = 0] the integrator only reflects. *)
Lemma evolve_plasma_dxi_0 (r pr q : list R) (xi s_d : R)
      (laser : option laser_params) :
  length pr = length r ->
  evolve_plasma argsort ct_c beam_source r pr q xi 0 laser s_d
  = reflect_negative r pr.
Proof.
  intros Hlen.
  unfold evolve_plasma.
  assert (Hhalf : forall l : list R,
            zip_with (fun x k => x + k / 2) l (np_zeros (length l)) = l)
    by (intros l; apply zip_with_zeros_r; intros x; lra).
  assert (Hfull : forall l : list R,
            zip_with Rplus l (np_zeros (length l)) = l)
    by (intros l; apply zip_with_zeros_r; intros x; lra).
  rewrite motion_derivatives_dxi_0.
  rewrite (Hhalf r). rewrite <- Hlen at 1. rewrite (Hhalf pr).
  rewrite motion_derivatives_dxi_0.
  rewrite (Hhalf r). rewrite <- Hlen at 1. rewrite (Hhalf pr).
  rewrite motion_derivatives_dxi_0.
  rewrite (Hfull r). rewrite <- Hlen at 1. rewrite (Hfull pr).
  rewrite motion_derivatives_dxi_0.
  unfold update_particles_rk4.
  replace (fold_left _ (seq 0 (length r)) (r, pr)) with (r, pr);
    [reflexivity|].
  symmetry.
  apply (fold_left_range_inv _
           (fun _ (st : list R * list R) => st = (r, pr))).
  - reflexivity.
  - intros k st _ ->. unfold rk4_body. rewrite !np_zeros_lookup.
    replace (r !!! k + (0 + 2 * (0 + 0) + 0) * (1 / 6)) with (r !!! k)
      by lra.
    replace (pr !!! k + (0 + 2 * (0 + 0) + 0) * (1 / 6)) with (pr !!! k)
      by lra.
    rewrite !insert_lookup_total_id. reflexivity.
Qed.

(** X6. A step of zero length moves nothing: on a column for which the EOM
    evaluator is defined (arrays of one length, no particle on the axis,
    non-zero 1 + psi_i and K_N, a valid laser pulse if there is one), with
    dxi = 0 the integrator returns the reflected column, which is the
    column it was given if that has no negative radius. *)
Theorem X6_evolve_plasma_zero_step (r pr q : list R) (xi s_d : R)
        (laser : option laser_params) :
  motion_defined argsort ct_c beam_source xi r pr q laser s_d ->
  evolve_plasma argsort ct_c beam_source r pr q xi 0 laser s_d
  = reflect_negative r pr /\
  ((forall i, (i < length r)%nat -> 0 <= r !!! i) ->
   evolve_plasma argsort ct_c beam_source r pr q xi 0 laser s_d = (r, pr)).
Proof.
  intros (_ & Hlen & _).
  pose proof (evolve_plasma_dxi_0 r pr q xi s_d laser Hlen) as E.
  split; [exact E|].
  intros Hpos. rewrite E. unfold reflect_negative.
  rewrite (np_where_neg_nonneg r Hpos). reflexivity.
Qed.

(** ** The potential: midpoint rule, charge inside a radius *)












(** ** The potential is continuous across a shell *)




(** ** The magnetic field: shells and their two sides *)






(** ** The laser source terms *)

Lemma derivable_pt_lim_ext (f g : R -> R) (x l : R) :
  (forall y, f y = g y) -> derivable_pt_lim g x l -> derivable_pt_lim f x l.
Proof.
  intros E Hg eps Heps. destruct (Hg eps Heps) as [delta Hd].
  exists delta. intros h Hh Hlt. rewrite !E. apply Hd; assumption.
Qed.

(** The radial profile of the pulse and its slope. *)
Lemma derivable_pt_lim_gaussian (A S B x : R) :
  derivable_pt_lim (fun y => A * (exp (- y ^ 2 / S) * B)) x
                   (- 2 * A * x / S * (exp (- x ^ 2 / S) * B)).
Proof.
  pose (p := fun y : R => (- / S) * (id y * id y)).
  assert (Hp : derivable_pt_lim p x ((- / S) * (1 * id x + id x * 1))).
  { apply (derivable_pt_lim_scal (id * id)%F).
    apply derivable_pt_lim_mult; apply derivable_pt_lim_id. }
  assert (He : derivable_pt_lim (comp exp p) x
                                (exp (p x) * ((- / S) * (1 * id x + id x * 1)))).
  { apply derivable_pt_lim_comp; [exact Hp | apply derivable_pt_lim_exp]. }
  apply (derivable_pt_lim_scal _ (A * B)) in He.
  apply (derivable_pt_lim_ext _ (mult_real_fct (A * B) (comp exp p))).
  - intros y. unfold mult_real_fct, comp, p, id.
    replace (- y ^ 2 / S) with (- / S * (y * y)) by (unfold Rdiv; ring).
    ring.
  - replace (- 2 * A * x / S * (exp (- x ^ 2 / S) * B))
      with (A * B * (exp (p x) * (- / S * (1 * id x + id x * 1)))).
    + exact He.
    + unfold p, id.
      replace (- x ^ 2 / S) with (- / S * (x * x)) by (unfold Rdiv; ring).
      unfold Rdiv. ring.
Qed.

Lemma laser_w_fac_ge_1 (y : R) : 1 <= sqrt (1 + y ^ 2).
Proof.
  rewrite <- sqrt_1 at 1. apply sqrt_le_1_alt.
  pose proof (pow2_ge_0 y). lra.
Qed.

Lemma exp_neg_square_le_1 (x y : R) : 0 < exp (- x ^ 2 / y ^ 2) <= 1.
Proof.
  split; [apply exp_pos|].
  assert (H : - x ^ 2 / y ^ 2 <= 0).
  { destruct (Req_dec y 0) as [->|Hy].
    - replace (0 ^ 2) with 0 by ring. unfold Rdiv. rewrite Rinv_0. lra.
    - assert (0 < y ^ 2)
        by (replace (y ^ 2) with (Rsqr y) by (unfold Rsqr; ring);
            apply Rsqr_pos_lt; exact Hy).
      assert (0 < / y ^ 2) by (apply Rinv_0_lt_compat; assumption).
      pose proof (pow2_ge_0 x). unfold Rdiv. nra. }
  rewrite <- exp_0. destruct H as [H|H].
  - left. apply exp_increasing. exact H.
  - rewrite H. right. reflexivity.
Qed.

Lemma laser_amplitude_bound (lp : laser_params) :
  let avg_amplitude :=
    if String.eqb (polarization lp) "linear" then a_0 lp / sqrt 2
    else a_0 lp in
  let z_r := PI * w_0 lp ^ 2 / l_0 lp in
  let w_fac := sqrt (1 + (laser_z_foc lp / z_r) ^ 2) in
  0 <= (avg_amplitude / w_fac) ^ 2 <= a_0 lp ^ 2.
Proof.
  intros amp z_r w_fac.
  pose proof (laser_w_fac_ge_1 (laser_z_foc lp / z_r)) as Hw. fold w_fac in Hw.
  split; [apply pow2_ge_0|].
  assert (Hamp : amp ^ 2 <= a_0 lp ^ 2).
  { unfold amp. destruct (String.eqb _ _); [|lra].
    unfold Rdiv. set (t := / sqrt 2).
    assert (Hs : sqrt 2 * sqrt 2 = 2) by (apply sqrt_sqrt; lra).
    assert (Hts : t * sqrt 2 = 1)
      by (apply Rinv_l, Rgt_not_eq, sqrt_lt_R0; lra).
    assert (Ht : t * t = / 2).
    { assert (t * t * 2 = 1); [|lra].
      rewrite <- Hs.
      replace (t * t * (sqrt 2 * sqrt 2)) with (t * sqrt 2 * (t * sqrt 2))
        by ring.
      rewrite Hts. ring. }
    replace ((a_0 lp * t) ^ 2) with (a_0 lp ^ 2 * (t * t)) by ring.
    rewrite Ht. pose proof (pow2_ge_0 (a_0 lp)). lra. }
  assert (Hinv : 0 < / w_fac <= 1).
  { split; [apply Rinv_0_lt_compat; lra|].
    rewrite <- Rinv_1. apply Rinv_le_contravar; lra. }
  unfold Rdiv. rewrite Rpow_mult_distr.
  pose proof (pow2_ge_0 amp).
  assert (0 <= (/ w_fac) ^ 2 <= 1) by nra.
  nra.
Qed.

(** X13. The array returned by [get_nabla_a] is the radial derivative of
    the one returned by [get_a2]: entry i of the first is the derivative of
    entry i of the second with respect to the radius r_i, for a pulse with
    positive waist, wavelength and duration. *)
Theorem X13_nabla_a_is_radial_derivative_of_a2
        (xi : R) (r : list R) (lp : laser_params) (i : nat) :
  0 < w_0 lp -> 0 < l_0 lp -> 0 < tau lp -> 0 < ct_c ->
  (i < length r)%nat ->
  derivable_pt_lim (fun x => get_a2 ct_c xi (<[i := x]> r) lp !!! i)
                   (r !!! i) (get_nabla_a ct_c xi r lp !!! i).
Proof.
  intros _ _ _ _ Hi. unfold get_a2, get_nabla_a. cbv zeta.
  rewrite fmap_lookup_R by exact Hi.
  eapply derivable_pt_lim_ext.
  - intros y. rewrite fmap_lookup_R by (rewrite length_insert; exact Hi).
    rewrite list_lookup_total_insert_eq by exact Hi. reflexivity.
  - apply derivable_pt_lim_gaussian.
Qed.

(** X14. For a pulse with positive waist, wavelength and duration, the
    squared vector potential returned by [get_a2] lies between 0 and
    a_0^2 at every radius and every xi. *)
Theorem X14_a2_bounded_by_peak
        (xi : R) (r : list R) (lp : laser_params) (i : nat) :
  0 < w_0 lp -> 0 < l_0 lp -> 0 < tau lp -> 0 < ct_c ->
  (i < length r)%nat ->
  0 <= get_a2 ct_c xi r lp !!! i <= a_0 lp ^ 2.
Proof.
  intros _ _ _ _ Hi. unfold get_a2. cbv zeta.
  rewrite fmap_lookup_R by exact Hi.
  pose proof (laser_amplitude_bound lp) as HA. cbv zeta in HA.
  set (A := (_ / _) ^ 2) in *.
  match goal with
  | |- context [exp ?a * exp ?b] =>
      assert (H1 : 0 < exp a <= 1) by apply exp_neg_square_le_1;
      assert (H2 : 0 < exp b <= 1) by apply exp_neg_square_le_1;
      generalize dependent (exp a); generalize dependent (exp b)
  end.
  intros e2 H2 e1 H1.
  assert (0 < e1 * e2 <= 1) by nra.
  pose proof (pow2_ge_0 (a_0 lp)). nra.
Qed.

(** X15. Linear polarization halves the laser source terms: for a pulse
    with positive waist, wavelength and duration, [get_a2] and
    [get_nabla_a] with polarization "linear" return half of what they
    return for any other polarization string. *)
Theorem X15_linear_polarization_halves
        (xi : R) (r : list R) (a0 l0 w0 tau0 xic zf : R) (pol : string)
        (i : nat) :
  0 < w0 -> 0 < l0 -> 0 < tau0 -> 0 < ct_c ->
  String.eqb pol "linear" = false ->
  (i < length r)%nat ->
  let lin := LaserParams a0 l0 w0 tau0 xic "linear" zf in
  let oth := LaserParams a0 l0 w0 tau0 xic pol zf in
  get_a2 ct_c xi r lin !!! i = get_a2 ct_c xi r oth !!! i / 2 /\
  get_nabla_a ct_c xi r lin !!! i = get_nabla_a ct_c xi r oth !!! i / 2.
Proof.
  intros _ _ _ _ Hpol Hi lin oth. unfold get_a2, get_nabla_a. cbv zeta.
  rewrite !fmap_lookup_R by exact Hi.
  unfold lin, oth. cbn [polarization a_0 l_0 w_0 tau xi_c laser_z_foc].
  rewrite Hpol. change (String.eqb "linear" "linear") with true. cbv iota.
  set (w_fac := sqrt (1 + _)).
  assert (Hw : w_fac <> 0).
  { pose proof (laser_w_fac_ge_1 (zf / (PI * w0 ^ 2 / l0))).
    fold w_fac in H. lra. }
  assert (E : (a0 / sqrt 2 / w_fac) ^ 2 = (a0 / w_fac) ^ 2 / 2).
  { assert (Hs : sqrt 2 <> 0) by (apply Rgt_not_eq, sqrt_lt_R0; lra).
    assert (H2 : sqrt 2 * sqrt 2 = 2) by (apply sqrt_sqrt; lra).
    apply (Rmult_eq_reg_l (sqrt 2 * sqrt 2)); [|nra].
    rewrite H2 at 2. field_simplify; [|exact Hw|split; assumption].
    reflexivity. }
  rewrite E. unfold Rdiv. split; ring.
Qed.

(** ** The driver: initial column, bookkeeping of the loop *)

Lemma np_linspace_lookup (start stop : R) (n k : nat) :
  (k < n)%nat ->
  np_linspace start stop n !!! k
  = INR k * ((stop - start) / INR (n - 1)) + start.
Proof.
  intros Hk. unfold np_linspace.
  rewrite (list_lookup_total_fmap _ (seq 0 n) k) by (rewrite length_seq; lia).
  rewrite lookup_total_seq_lt by exact Hk. reflexivity.
Qed.

Lemma length_np_linspace (start stop : R) (n : nat) :
  length (np_linspace start stop n) = n.
Proof. unfold np_linspace. rewrite length_fmap. apply length_seq. Qed.

Lemma Rsum_fmap_ext (f g : nat -> R) (l : list nat) :
  (forall x, x ∈ l -> f x = g x) -> Rsum (f <$> l) = Rsum (g <$> l).
Proof.
  induction l as [|x l IH]; intros He; [reflexivity|].
  rewrite !fmap_cons, !Rsum_cons, IH, (He x)
    by (try left; intros; apply He; right; assumption).
  reflexivity.
Qed.

Lemma Rsum_cell_centres (n : nat) (c : R) :
  Rsum ((fun k => c * (INR k + 1 / 2)) <$> seq 0 n) = c * INR n ^ 2 / 2.
Proof.
  induction n as [|n IH].
  - unfold Rsum. simpl. lra.
  - rewrite seq_S, Rsum_fmap_snoc, IH, S_INR. simpl. lra.
Qed.


(** X16. The initial plasma column is uniform and neutral: its n_r ppc
    particles sit at the centres (k + 1/2) dr_p of cells of width
    dr_p = r_max / (n_r ppc), at rest, each with charge dr_p r_k, and their
    total charge is r_max^2 / 2, the charge of the ion background inside
    r_max. *)
Theorem X16_initial_column_uniform_and_neutral (r_max : R) (n_r ppc : nat) :
  (0 < n_r)%nat -> (0 < ppc)%nat ->
  let p0 := initial_plasma r_max n_r ppc in
  let dr_p := r_max / INR (n_r * ppc) in
  length (pl_r p0) = (n_r * ppc)%nat /\
  (forall k, (k < n_r * ppc)%nat ->
     pl_r p0 !!! k = (INR k + 1 / 2) * dr_p /\
     pl_pr p0 !!! k = 0 /\
     pl_q p0 !!! k = dr_p * pl_r p0 !!! k) /\
  total_charge (pl_r p0) (pl_q p0) = r_max ^ 2 / 2.
Proof.
  intros Hnr Hppc p0 dr_p.
  assert (Hn : (0 < n_r * ppc)%nat) by lia.
  assert (HINR : 0 < INR (n_r * ppc)) by (apply lt_0_INR; exact Hn).
  assert (Edr : r_max / INR n_r / INR ppc = dr_p).
  { unfold dr_p. rewrite mult_INR.
    assert (0 < INR n_r) by (apply lt_0_INR; exact Hnr).
    assert (0 < INR ppc) by (apply lt_0_INR; exact Hppc).
    field. split; lra. }
  unfold p0, initial_plasma. cbv zeta. rewrite Edr.
  cbn [pl_r pl_pr pl_q]. rewrite length_np_linspace.
  assert (Hr : forall k, (k < n_r * ppc)%nat ->
            np_linspace (dr_p / 2) (r_max - dr_p / 2) (n_r * ppc) !!! k
            = (INR k + 1 / 2) * dr_p).
  { intros k Hk. rewrite np_linspace_lookup by exact Hk.
    destruct (decide (n_r * ppc = 1)%nat) as [E1|E1].
    - assert (k = 0%nat) as -> by lia. simpl. lra.
    - rewrite minus_INR by lia. simpl (INR 1).
      assert (1 < INR (n_r * ppc)) by (apply lt_1_INR; lia).
      unfold dr_p. field. lra. }
  assert (Hq : forall k, (k < n_r * ppc)%nat ->
            ((fun x => dr_p * x)
               <$> np_linspace (dr_p / 2) (r_max - dr_p / 2) (n_r * ppc)) !!! k
            = dr_p * ((INR k + 1 / 2) * dr_p)).
  { intros k Hk. rewrite fmap_lookup_R by (rewrite length_np_linspace; lia).
    rewrite Hr by exact Hk. reflexivity. }
  split; [reflexivity|]. split.
  - intros k Hk. split; [apply Hr; exact Hk|]. split.
    + apply lookup_total_replicate_2. exact Hk.
    + rewrite Hq, Hr by exact Hk. reflexivity.
  - unfold total_charge. rewrite length_np_linspace.
    rewrite (Rsum_fmap_ext _ (fun k => dr_p * dr_p * (INR k + 1 / 2))).
    + rewrite Rsum_cell_centres. unfold dr_p. field. lra.
    + intros k Hk. apply elem_of_seq in Hk. rewrite Hq by lia. ring.
Qed.




(** ** The driver: the meshes *)










(** ** Field samples have one entry per probe radius *)

Lemma probe_fold_lengths (r_arr r : list R) (idx : list nat)
      (sum_1_arr sum_2_arr sum_3_arr : list R) :
  let out := fold_left (probe_body r_arr r idx sum_1_arr sum_2_arr sum_3_arr)
                       (seq 0 (length r_arr))
                       (ProbeOut 0 (np_zeros (length r_arr))
                                 (np_zeros (length r_arr))
                                 (np_zeros (length r_arr))) in
  length (po_psi out) = length r_arr /\
  length (po_dr_psi out) = length r_arr /\
  length (po_dxi_psi out) = length r_arr.
Proof.
  cbv zeta.
  pose (Inv := fun (k : nat) (st : probe_out) =>
    length (po_psi st) = length r_arr /\
    length (po_dr_psi st) = length r_arr /\
    length (po_dxi_psi st) = length r_arr).
  apply (fold_left_range_inv _ Inv); unfold Inv.
  - simpl. unfold np_zeros. rewrite length_replicate. auto.
  - intros k st _ (L1 & L2 & L3). unfold probe_body.
    destruct (decide (_ = -1)%Z); cbn [po_psi po_dr_psi po_dxi_psi];
      rewrite !length_insert; auto.
Qed.

Lemma b_theta_fold_length (r_arr r : list R) (idx : list nat)
      (a_i b_i : list R) (a_0 : R) :
  length (fold_left (b_theta_body r_arr r idx a_i b_i a_0)
                    (seq 0 (length r_arr))
                    (0%Z, np_zeros (length r_arr))).2 = length r_arr.
Proof.
  apply (fold_left_range_inv _
           (fun _ (st : Z * list R) => length st.2 = length r_arr)).
  - simpl. apply length_replicate.
  - intros k [i_last mesh] _ Hl. simpl in Hl. unfold b_theta_body.
    destruct (decide (_ = -1)%Z); cbn [snd]; rewrite length_insert; exact Hl.
Qed.

(** X20. For a column on which [calculate_fields] is defined (non-empty,
    arrays of one length, positive radii, non-zero 1 + psi_i and K_N, a
    valid laser pulse if there is one), whatever the number of its
    particles, the four field samples that [calculate_fields] computes (psi,
    dr_psi, dxi_psi and b_theta_bar) have exactly one entry per probe
    radius. *)
Theorem X20_calculate_fields_one_entry_per_probe
        (r_arr : list R) (xi : R) (r pr q : list R)
        (laser : option laser_params) (s_d : R) :
  fields_defined argsort ct_c beam_source xi r pr q laser s_d ->
  let '(psi_r, dr_psi_r, dxi_psi_r, b_theta_bar_r, _) :=
    calculate_fields argsort ct_c beam_source r_arr xi r pr q laser s_d in
  length psi_r = length r_arr /\ length dr_psi_r = length r_arr /\
  length dxi_psi_r = length r_arr /\ length b_theta_bar_r = length r_arr.
Proof.
  intros _.
  unfold calculate_fields.
  destruct (match laser with Some _ => _ | None => _ end) as [nabla_a a2].
  destruct (calculate_psi_and_derivatives_at_particles argsort r pr q)
    as [[psi dr_psi] dxi_psi].
  unfold calculate_psi_and_derivatives.
  destruct (fold_left (sum_3_body _ _ _ _) _ _) as [sum_3_arr sum_3].
  destruct (probe_fold_lengths r_arr r (argsort r)
              (pb_sum_1_arr (probe_pass_run argsort r q))
              (pb_sum_2_arr (probe_pass_run argsort r q)) sum_3_arr)
    as (L1 & L2 & L3).
  rewrite !length_fmap.
  split; [exact L1|]. split; [exact L2|]. split; [exact L3|].
  unfold calculate_b_theta, calculate_ai_bi. apply b_theta_fold_length.
Qed.

(** ** The probe-mode dxi_psi *)





End SolverProperties.

(** ** Instances of the further properties *)

Lemma X1_witness :
  let p := push_momentum 1 1 1 [3] [4] [0] [0] [0] [0] [0] [0] [2] 1 in
  mom_px p !!! 0%nat ^ 2 + mom_py p !!! 0%nat ^ 2 + mom_pz p !!! 0%nat ^ 2
  = [3] !!! 0%nat ^ 2 + [4] !!! 0%nat ^ 2 + [0] !!! 0%nat ^ 2.
Proof.
  apply (X1_push_momentum_magnetic_rotation 1 1 1 [3] [4] [0] [0] [0] [0]
           [0] [0] [2] 1 0%nat); try reflexivity.
  simpl. lia.
Defined.

Lemma X2_witness :
  let k := - 1 * 1 / (1 * 2 * 1) in
  let p := push_momentum 1 1 1 [1] [2] [3] [1] [1] [1] [0] [0] [0] 1 in
  mom_px p !!! 0%nat = [1] !!! 0%nat + 2 * k * [1] !!! 0%nat /\
  mom_py p !!! 0%nat = [2] !!! 0%nat + 2 * k * [1] !!! 0%nat /\
  mom_pz p !!! 0%nat = [3] !!! 0%nat + 2 * k * [1] !!! 0%nat.
Proof.
  apply (X2_push_momentum_electric_kick 1 1 1 [1] [2] [3] [1] [1] [1]
           [0] [0] [0] 1 0%nat); try reflexivity.
  simpl. lia.
Defined.

Lemma X3_witness :
  let s := apply_half_position_push 1 [0] [0] [0] [1] [2] [3] 1 in
  Rabs (pos_x s !!! 0%nat - [0] !!! 0%nat) <= 1 * 1 / 2 /\
  Rabs (pos_y s !!! 0%nat - [0] !!! 0%nat) <= 1 * 1 / 2 /\
  [0] !!! 0%nat - 1 * 1 <= pos_xi s !!! 0%nat <= [0] !!! 0%nat.
Proof.
  apply (X3_half_position_push_subluminal 1 [0] [0] [0] [1] [2] [3] 1 0%nat);
    try lra; simpl; lia.
Defined.

Lemma X4_witness :
  let out := apply_boris_pusher 1 1 1 (fun _ _ _ fa => fa)
                                [0] [0] [0] [1] [2] [3]
                                (FieldArrays [0] [0] [0] [0] [0] [0]) 1 in
  mom_px out.2 !!! 0%nat = 1 /\ mom_py out.2 !!! 0%nat = 2 /\
  mom_pz out.2 !!! 0%nat = 3.
Proof.
  pose proof (X4_boris_pusher_free_drift 1 1 1 (fun _ _ _ fa => fa)
                [0] [0] [0] [1] [2] [3]
                (FieldArrays [0] [0] [0] [0] [0] [0]) 1 0%nat
                ltac:(simpl; lia) eq_refl eq_refl eq_refl eq_refl eq_refl
                eq_refl eq_refl eq_refl eq_refl eq_refl eq_refl) as H.
  cbv zeta in H. destruct H as (H1 & H2 & H3 & _).
  split; [exact H1|]. split; [exact H2 | exact H3].
Defined.

Lemma X6_witness :
  evolve_plasma stable_argsort 1 no_beam [1 / 2] [0] [1 / 2] 0 0 None 1
  = reflect_negative [1 / 2] [0] /\
  evolve_plasma stable_argsort 1 no_beam [1 / 2] [0] [1 / 2] 0 0 None 1
  = ([1 / 2], [0]).
Proof.
  destruct (X6_evolve_plasma_zero_step stable_argsort 1 no_beam
              [1 / 2] [0] [1 / 2] 0 1 None) as [H1 H2].
  - apply (single_motion_defined no_beam 1 0 (1 / 2) 0 (1 / 2) 1 0);
      [lra | lra | reflexivity].
  - split; [exact H1|]. apply H2.
    intros i Hi. simpl in Hi.
    destruct i as [|i]; [simpl; lra | lia].
Defined.







Lemma X13_witness :
  let lp := LaserParams 1 1 1 1 0 "linear" 0 in
  0 < w_0 lp /\
  derivable_pt_lim (fun x => get_a2 1 0 (<[0%nat := x]> [1]) lp !!! 0%nat)
                   ([1] !!! 0%nat) (get_nabla_a 1 0 [1] lp !!! 0%nat).
Proof.
  split; [simpl; lra|].
  apply (X13_nabla_a_is_radial_derivative_of_a2 1 0 [1]
           (LaserParams 1 1 1 1 0 "linear" 0) 0%nat);
    simpl; try lra; lia.
Defined.

Lemma X14_witness :
  let lp := LaserParams 2 1 1 1 0 "circular" 0 in
  0 <= get_a2 1 0 [1; 3] lp !!! 1%nat <= 2 ^ 2.
Proof.
  apply (X14_a2_bounded_by_peak 1 0 [1; 3]
           (LaserParams 2 1 1 1 0 "circular" 0) 1%nat);
    simpl; try lra; lia.
Defined.

Lemma X15_witness :
  let lin := LaserParams 2 1 1 1 0 "linear" 0 in
  let oth := LaserParams 2 1 1 1 0 "circular" 0 in
  get_a2 1 0 [1] lin !!! 0%nat = get_a2 1 0 [1] oth !!! 0%nat / 2 /\
  get_nabla_a 1 0 [1] lin !!! 0%nat = get_nabla_a 1 0 [1] oth !!! 0%nat / 2.
Proof.
  apply (X15_linear_polarization_halves 1 0 [1] 2 1 1 1 0 0 "circular"
           0%nat); try lra; try reflexivity.
  simpl. lia.
Defined.

Lemma X16_witness :
  let p0 := initial_plasma 1 2 2 in
  length (pl_r p0) = 4%nat /\
  total_charge (pl_r p0) (pl_q p0) = 1 ^ 2 / 2.
Proof.
  pose proof (X16_initial_column_uniform_and_neutral 1 2 2
                ltac:(lia) ltac:(lia)) as H.
  cbv zeta in H. destruct H as (H1 & _ & H3).
  split; [exact H1 | exact H3].
Defined.



Lemma X20_witness :
  let '(psi_r, dr_psi_r, dxi_psi_r, b_theta_bar_r, _) :=
    calculate_fields stable_argsort 1 no_beam [1 / 4; 1] 0
                     [1 / 2] [0] [1 / 2] None 1 in
  length psi_r = 2%nat /\ length dr_psi_r = 2%nat /\
  length dxi_psi_r = 2%nat /\ length b_theta_bar_r = 2%nat.
Proof.
  apply (X20_calculate_fields_one_entry_per_probe stable_argsort 1 no_beam
           [1 / 4; 1] 0 [1 / 2] [0] [1 / 2] None 1).
  apply (single_fields_defined no_beam 1 0 (1 / 2) 0 (1 / 2) 1 0);
    [lra | lra | reflexivity].
Defined.

